(** * rerender.dev: the rule-based analysis engine of [server/analyze.js]

    A shallow embedding of [analyze], of its rule catalog and of the part of
    the ECMAScript regular-expression semantics the catalog relies on,
    followed by the properties of the engine.

    Conventions.
    - A JavaScript string is the list of its UTF-16 code units, each an [N].
    - A regular expression is a syntax tree; its matcher returns the list of
      all the states the backtracking search of ECMAScript would try, in the
      order it tries them, so that the head of the list is the match
      [RegExp.prototype.exec] reports.
    - The [lastIndex] cursors of the catalog's global regex objects live in a
      store that is threaded through [analyze], as they outlive a call. *)

From Stdlib Require Import NArith ZArith Ascii String.
From stdpp Require Import base option list gmap strings sorting.

Local Open Scope nat_scope.

(** ** Strings as code-unit sequences *)

Abbreviation CodeUnit := N (only parsing).
Abbreviation JSString := (list N) (only parsing).

(** An ASCII literal of the source as a code-unit sequence. *)
Fixpoint lit (s : string) : JSString :=
  match s with
  | EmptyString => []
  | String a s' => N_of_ascii a :: lit s'
  end.

(** [WhiteSpace] and [LineTerminator] of ECMAScript: what [\s] matches and
    what [String.prototype.trim] strips. *)
Definition is_line_terminator (c : CodeUnit) : bool :=
  ((c =? 10) || (c =? 13) || (c =? 8232) || (c =? 8233))%N.

Definition is_white_space (c : CodeUnit) : bool :=
  ((c =? 9) || (c =? 11) || (c =? 12) || (c =? 32) || (c =? 160) ||
   (c =? 5760) || ((8192 <=? c) && (c <=? 8202)) || (c =? 8239) ||
   (c =? 8287) || (c =? 12288) || (c =? 65279))%N.

Definition is_space (c : CodeUnit) : bool :=
  is_white_space c || is_line_terminator c.

(** [s.slice(i, j)] for [0 <= i <= j]. *)
Definition slice (s : JSString) (i j : nat) : JSString :=
  take (j - i) (drop i s).

Fixpoint trim_start (s : JSString) : JSString :=
  match s with
  | c :: s' => if is_space c then trim_start s' else s
  | [] => []
  end.

Definition trim_end (s : JSString) : JSString :=
  reverse (trim_start (reverse s)).

(** [s.trim()] *)
Definition trim (s : JSString) : JSString := trim_end (trim_start s).

(** ** Regular expressions *)

Inductive Regex : Type :=
| Eps                                          (* empty alternative *)
| Chr (c : CodeUnit)                           (* pattern character *)
| Cls (negated : bool) (ranges : list (CodeUnit * CodeUnit))  (* [..], [^..] *)
| Space                                        (* \s *)
| Dot                                          (* . *)
| Seq (r1 r2 : Regex)
| Alt (r1 r2 : Regex)                          (* r1|r2 *)
| Star (r : Regex)                             (* r*, greedy *)
| Group (n : nat) (r : Regex)                  (* n-th capturing group *)
| NegLook (r : Regex).                         (* (?!r) *)

(** [r+] *)
Definition Plus (r : Regex) : Regex := Seq r (Star r).

Fixpoint seqs (rs : list Regex) : Regex :=
  match rs with
  | [] => Eps
  | [r] => r
  | r :: rs' => Seq r (seqs rs')
  end.

Fixpoint alts (rs : list Regex) : Regex :=
  match rs with
  | [] => Eps
  | [r] => r
  | r :: rs' => Alt r (alts rs')
  end.

(** A run of pattern characters. *)
Definition chars (s : string) : Regex := seqs (Chr <$> lit s).

Definition one (s : string) : list (CodeUnit * CodeUnit) :=
  (fun c => (c, c)) <$> lit s.

(** The capturing groups inside a regex: a quantifier clears them at the
    start of each iteration. *)
Fixpoint groups (r : Regex) : list nat :=
  match r with
  | Seq r1 r2 | Alt r1 r2 => groups r1 ++ groups r2
  | Star r | NegLook r => groups r
  | Group n r => n :: groups r
  | _ => []
  end.

Record RegExp := {
  source : Regex;
  global : bool;
  ignoreCase : bool
}.

(** The state of a match in progress: the end index reached and the ranges
    of the groups captured so far; a group without a range is JavaScript's
    [undefined]. *)
Record MatchState := {
  endIndex : nat;
  captures : gmap nat (nat * nat)
}.

Definition advance (x : MatchState) : MatchState :=
  {| endIndex := S (endIndex x); captures := captures x |}.

Definition set_capture (n : nat) (r : nat * nat) (x : MatchState) : MatchState :=
  {| endIndex := endIndex x; captures := <[n := r]> (captures x) |}.

Definition clear_captures (ns : list nat) (x : MatchState) : MatchState :=
  {| endIndex := endIndex x;
     captures := foldr (fun n m => delete n m) (captures x) ns |}.

Section Matcher.
Variable ic : bool.          (* the i flag *)
Variable input : JSString.

(** [Canonicalize] without the u flag.  On ASCII it is upper-casing; a code
    unit of 128 or more never canonicalizes to an ASCII one, so comparing
    with an ASCII pattern character, as every pattern character of the
    catalog is, is exact although the case table above ASCII is left out. *)
Definition canonicalize (c : CodeUnit) : CodeUnit :=
  if ic && (97 <=? c)%N && (c <=? 122)%N then (c - 32)%N else c.

Definition in_ranges (ranges : list (CodeUnit * CodeUnit)) (c : CodeUnit) : bool :=
  existsb (fun '(lo, hi) => (lo <=? c)%N && (c <=? hi)%N) ranges.

(** Membership in a class; under the i flag a member whose canonical form
    is that of [c] is enough. *)
Definition in_class (negated : bool) (ranges : list (CodeUnit * CodeUnit))
    (c : CodeUnit) : bool :=
  xorb negated
    (if ic
     then existsb (fun '(lo, hi) =>
            ((lo <=? c)%N && (c <=? hi)%N) ||
            ((97 <=? c)%N && (c <=? 122)%N && (lo <=? c - 32)%N && (c - 32 <=? hi)%N) ||
            ((65 <=? c)%N && (c <=? 90)%N && (lo <=? c + 32)%N && (c + 32 <=? hi)%N))
          ranges
     else in_ranges ranges c).

(** A matcher for one character: it fails at the end of the input. *)
Definition char_matcher (p : CodeUnit -> bool) (x : MatchState) : list MatchState :=
  match input !! endIndex x with
  | Some c => if p c then [advance x] else []
  | None => []
  end.

(** [RepeatMatcher] for a greedy [*]: iterate first, then stop.  An
    iteration that consumed nothing is rejected.  [n] bounds the
    iterations by the characters left, each one consuming at least one. *)
Fixpoint repeat_matcher (m : MatchState -> list MatchState) (gs : list nat)
    (n : nat) (x : MatchState) : list MatchState :=
  match n with
  | 0 => [x]
  | S n' =>
      (y ← m (clear_captures gs x);
       if endIndex y =? endIndex x then [] else repeat_matcher m gs n' y)
      ++ [x]
  end.

Fixpoint matcher (r : Regex) (x : MatchState) : list MatchState :=
  match r with
  | Eps => [x]
  | Chr c => char_matcher (fun ch => (canonicalize ch =? canonicalize c)%N) x
  | Cls negated ranges => char_matcher (in_class negated ranges) x
  | Space => char_matcher is_space x
  | Dot => char_matcher (fun ch => negb (is_line_terminator ch)) x
  | Seq r1 r2 => y ← matcher r1 x; matcher r2 y
  | Alt r1 r2 => matcher r1 x ++ matcher r2 x
  | Star r' => repeat_matcher (matcher r') (groups r') (length input - endIndex x) x
  | Group n r' =>
      (fun y => set_capture n (endIndex x, endIndex y) y) <$> matcher r' x
  | NegLook r' =>
      match matcher r' x with
      | [] => [x]
      | _ :: _ => []
      end
  end.

(** The match that starts at index [i], if there is one. *)
Definition match_at (r : Regex) (i : nat) : option MatchState :=
  head (matcher r {| endIndex := i; captures := ∅ |}).

(** The search loop of [RegExpBuiltinExec]: try [i], [i+1], ... for [n]
    positions. *)
Fixpoint search (r : Regex) (n i : nat) : option (nat * MatchState) :=
  match n with
  | 0 => None
  | S n' =>
      match match_at r i with
      | Some y => Some (i, y)
      | None => search r n' (S i)
      end
  end.
End Matcher.

(** What [exec] returns when it does not return [null]: [index], the end of
    the match, and the captures. *)
Record MatchResult := {
  index : nat;
  lastEnd : nat;
  groupRanges : gmap nat (nat * nat)
}.

(** [match[0]] and [match[n]] *)
Definition matched (code : JSString) (m : MatchResult) : JSString :=
  slice code (index m) (lastEnd m).

Definition group (code : JSString) (m : MatchResult) (n : nat) : option JSString :=
  (fun '(i, j) => slice code i j) <$> groupRanges m !! n.

(** [re.exec(code)] with [re.lastIndex = lastIndex]: the result and the new
    value of [re.lastIndex].  A regex without the g flag starts at 0 and
    leaves [lastIndex] alone. *)
Definition exec (re : RegExp) (code : JSString) (lastIndex : nat)
    : option MatchResult * nat :=
  let start := if global re then lastIndex else 0 in
  if length code <? start then (None, if global re then 0 else lastIndex)
  else
    match search (ignoreCase re) code (source re) (S (length code - start)) start with
    | None => (None, if global re then 0 else lastIndex)
    | Some (i, y) =>
        (Some {| index := i; lastEnd := endIndex y; groupRanges := captures y |},
         if global re then endIndex y else lastIndex)
    end.

(** [re.test(code)] *)
Definition test (re : RegExp) (code : JSString) (lastIndex : nat) : bool * nat :=
  let '(m, li) := exec re code lastIndex in (bool_decide (is_Some m), li).

(** ** The rule catalog *)

Module Rule.
Record t := {
  id : string;
  type : string;
  title : string;
  why : string;
  fix_ : string;
  severity : string;
  regex : RegExp;
  requiresMemoContext : bool;   (* an absent field reads as falsy *)
  suppressBuiltIns : bool
}.
End Rule.

(** Safe built-in initializers for useState that should not be flagged. *)
Definition SAFE_USESTATE_INITIALIZERS : gset JSString :=
  list_to_set (lit <$> ["Number"; "String"; "Boolean"; "Object"; "Array"; "Date"]%string).

Definition g (r : Regex) : RegExp :=
  {| source := r; global := true; ignoreCase := false |}.
Definition gi (r : Regex) : RegExp :=
  {| source := r; global := true; ignoreCase := true |}.

Definition spaces : Regex := Star Space.
Definition none_of (s : string) : Regex := Cls true (one s).
Definition dquote : string := String (ascii_of_nat 34) EmptyString.

(** /(on[A-Z][^=]*|onClick|onChange)=\s*\{\s*\([^\)]*\)\s*=>\s*[^}]*\}/ *)
Definition inline_handler : Regex :=
  seqs [Group 1 (alts [seqs [chars "on"; Cls false [(65, 90)%N]; Star (none_of "=")];
                       chars "onClick"; chars "onChange"]);
        chars "="; spaces; chars "{"; spaces; chars "("; Star (none_of ")");
        chars ")"; spaces; chars "=>"; spaces; Star (none_of "}"); chars "}"].

Definition A001 : Rule.t := {|
  Rule.id := "A001";
  Rule.type := "useEffect-missing-deps";
  Rule.title := "Missing dependency array in useEffect";
  Rule.why := "This effect runs after every render, which may cause unnecessary work or unintended behavior.";
  Rule.fix_ := "Add a dependency array (`[]` or `[deps]`) to control when the effect runs.";
  Rule.severity := "High";
  (* /useEffect\s*\(\s*\(\s*\)\s*=>\s*\{[^}]*\}\s*\)/g *)
  Rule.regex := g (seqs [chars "useEffect"; spaces; chars "("; spaces; chars "(";
                         spaces; chars ")"; spaces; chars "=>"; spaces; chars "{";
                         Star (none_of "}"); chars "}"; spaces; chars ")"]);
  Rule.requiresMemoContext := false;
  Rule.suppressBuiltIns := false
|}.

Definition A002 : Rule.t := {|
  Rule.id := "A002";
  Rule.type := "useMemo-useCallback-missing-deps";
  Rule.title := "useMemo / useCallback missing dependency array";
  Rule.why := "Using these hooks without a dependency array provides no memoization benefit.";
  Rule.fix_ := "Always pass a dependency array. Remove the hook if memoization is unnecessary.";
  Rule.severity := "Medium";
  (* /(useMemo|useCallback)\s*\(\s*(\([^\)]*\)\s*=>\s*\{[^}]*\})\s*\)(?!\s*,\s*\[)/g *)
  Rule.regex := g (seqs [Group 1 (alts [chars "useMemo"; chars "useCallback"]);
                         spaces; chars "("; spaces;
                         Group 2 (seqs [chars "("; Star (none_of ")"); chars ")"; spaces;
                                        chars "=>"; spaces; chars "{";
                                        Star (none_of "}"); chars "}"]);
                         spaces; chars ")";
                         NegLook (seqs [spaces; chars ","; spaces; chars "["])]);
  Rule.requiresMemoContext := false;
  Rule.suppressBuiltIns := false
|}.

Definition A003 : Rule.t := {|
  Rule.id := "A003";
  Rule.type := "useState-function-reference";
  Rule.title := "useState initialized with function reference";
  Rule.why := "Passing a function reference to useState stores the function itself as state. This is often unintentional.";
  Rule.fix_ := "If you intend to compute an initial value, wrap the call: useState(() => computeValue()).";
  Rule.severity := "Low";
  (* the regex of A003: useState\( \s* ( [a-zA-Z_$] [a-zA-Z0-9_$]* ) \s* \), flag g,
     written here with blanks between its parts *)
  Rule.regex := g (seqs [chars "useState("; spaces;
                         Group 1 (seqs [Cls false ([(97, 122); (65, 90)]%N ++ one "_$");
                                        Star (Cls false ([(97, 122); (65, 90); (48, 57)]%N
                                                         ++ one "_$"))]);
                         spaces; chars ")"]);
  Rule.requiresMemoContext := false;
  Rule.suppressBuiltIns := true
|}.

Definition B001A : Rule.t := {|
  Rule.id := "B001A";
  Rule.type := "inline-function-breaks-memoization";
  Rule.title := "Inline function breaks memoization";
  Rule.why := "This inline function is passed to a memoized component. A new function is created on every render, defeating React.memo.";
  Rule.fix_ := "Extract the handler and memoize it using useCallback before passing it to the memoized component.";
  Rule.severity := "High";
  Rule.regex := g inline_handler;
  Rule.requiresMemoContext := true;
  Rule.suppressBuiltIns := false
|}.

Definition B001B : Rule.t := {|
  Rule.id := "B001B";
  Rule.type := "jsx-inline-arrow-function";
  Rule.title := "Inline arrow function in JSX prop (context-dependent)";
  Rule.why := "Inline arrow functions create a new function on every render. This is usually fine, but can cause unnecessary re-renders when passed to memoized or frequently re-rendered components.";
  Rule.fix_ := "If this prop is passed to a memoized or frequently rendered child, consider extracting or memoizing the handler.";
  Rule.severity := "Info";
  Rule.regex := g inline_handler;
  Rule.requiresMemoContext := false;
  Rule.suppressBuiltIns := false
|}.

Definition B002 : Rule.t := {|
  Rule.id := "B002";
  Rule.type := "jsx-inline-object-literal";
  Rule.title := "Inline object or array literal in JSX prop";
  Rule.why := "New object or array references are created on every render, causing unnecessary re-renders.";
  Rule.fix_ := "Move the object/array outside the component or memoize it with useMemo.";
  Rule.severity := "Medium";
  (* /(config|options|data|items|settings)=\s*\{\s*(\{[^}]*\}|\[[^\]]*\])\s*\}/g *)
  Rule.regex := g (seqs [Group 1 (alts [chars "config"; chars "options"; chars "data";
                                        chars "items"; chars "settings"]);
                         chars "="; spaces; chars "{"; spaces;
                         Group 2 (alts [seqs [chars "{"; Star (none_of "}"); chars "}"];
                                        seqs [chars "["; Star (none_of "]"); chars "]"]]);
                         spaces; chars "}"]);
  Rule.requiresMemoContext := false;
  Rule.suppressBuiltIns := false
|}.

Definition B003 : Rule.t := {|
  Rule.id := "B003";
  Rule.type := "jsx-array-index-key";
  Rule.title := "Using array index as key";
  Rule.why := "Using index as key can cause incorrect UI updates when list order changes.";
  Rule.fix_ := "Use a stable, unique identifier from the data instead.";
  Rule.severity := "High";
  (* /key\s*=\s*\{\s*(index|i)\s*\}/g *)
  Rule.regex := g (seqs [chars "key"; spaces; chars "="; spaces; chars "{"; spaces;
                         Group 1 (alts [chars "index"; chars "i"]); spaces; chars "}"]);
  Rule.requiresMemoContext := false;
  Rule.suppressBuiltIns := false
|}.

Definition C001 : Rule.t := {|
  Rule.id := "C001";
  Rule.type := "a11y-missing-alt";
  Rule.title := "Image missing alt attribute";
  Rule.why := "Missing alt text harms accessibility for screen reader users.";
  Rule.fix_ := String.append "Add a meaningful alt attribute or use alt="
                 (String.append dquote (String.append dquote " for decorative images."));
  Rule.severity := "High";
  (* /<img\s+(?!.*alt=)/gi *)
  Rule.regex := gi (seqs [chars "<img"; Plus Space;
                          NegLook (seqs [Star Dot; chars "alt="])]);
  Rule.requiresMemoContext := false;
  Rule.suppressBuiltIns := false
|}.

Definition C002 : Rule.t := {|
  Rule.id := "C002";
  Rule.type := "a11y-missing-label";
  Rule.title := "Form control missing label";
  Rule.why := "Form elements without labels are inaccessible to assistive technologies.";
  Rule.fix_ := "Add a <label>, aria-label, or aria-labelledby.";
  Rule.severity := "Medium";
  (* /<(input|textarea|select)\s+(?!.*(id=|aria-label=|aria-labelledby=))/gi *)
  Rule.regex := gi (seqs [chars "<";
                          Group 1 (alts [chars "input"; chars "textarea"; chars "select"]);
                          Plus Space;
                          NegLook (seqs [Star Dot;
                                         Group 2 (alts [chars "id="; chars "aria-label=";
                                                        chars "aria-labelledby="])])]);
  Rule.requiresMemoContext := false;
  Rule.suppressBuiltIns := false
|}.

(** Metadata for the analysis rules. *)
Definition ANALYSIS_RULES : list Rule.t :=
  [A001; A002; A003; B001A; B001B; B002; B003; C001; C002].

(** /React\.memo\s*\(/ *)
Definition memo_signature : RegExp :=
  {| source := seqs [chars "React.memo"; spaces; chars "("];
     global := false; ignoreCase := false |}.

(** ** Values, issues and reports *)

(** What a caller can pass as [code]. *)
Inductive JSValue : Type :=
| JSUndefined
| JSNull
| JSBoolean (b : bool)
| JSNumber (x : option Z)          (* [None] is NaN *)
| JSStringV (s : JSString)
| JSObject.                        (* an object, array or function *)

(** ToBoolean *)
Definition truthy (v : JSValue) : bool :=
  match v with
  | JSUndefined | JSNull => false
  | JSBoolean b => b
  | JSNumber x => match x with Some z => negb (z =? 0)%Z | None => false end
  | JSStringV s => negb (bool_decide (s = []))
  | JSObject => true
  end.

Definition typeof (v : JSValue) : string :=
  match v with
  | JSUndefined => "undefined"
  | JSNull | JSObject => "object"
  | JSBoolean _ => "boolean"
  | JSNumber _ => "number"
  | JSStringV _ => "string"
  end.

Record Occurrence := {
  lineNumber : nat;
  snippet : JSString;
  charStart : nat;
  charEnd : nat
}.

Module Issue.
Record t := {
  id : string;
  type : string;
  title : string;
  why : string;
  fix_ : string;
  severity : string;
  occurrence : Occurrence
}.
End Issue.

(** The two shapes of object [analyze] returns.  The timestamp is the
    instant read from the clock; its rendering as an ISO string is left
    out. *)
Inductive Report : Type :=
| ErrorReport (timestamp : Z) (status : string) (error : string)
| AnalysisReport (timestamp : Z) (status : string) (totalIssues : nat)
    (issues : list Issue.t).

Definition status (r : Report) : string :=
  match r with
  | ErrorReport _ s _ | AnalysisReport _ s _ _ => s
  end.

(** The fields below are [None] where the object has no such field. *)
Definition error (r : Report) : option string :=
  match r with
  | ErrorReport _ _ e => Some e
  | AnalysisReport _ _ _ _ => None
  end.

Definition totalIssues (r : Report) : option nat :=
  match r with
  | ErrorReport _ _ _ => None
  | AnalysisReport _ _ n _ => Some n
  end.

Definition issues (r : Report) : option (list Issue.t) :=
  match r with
  | ErrorReport _ _ _ => None
  | AnalysisReport _ _ _ l => Some l
  end.

(** ** The engine *)

(** [s.match(/\n/g)]: every line feed of [s], or [null]. *)
Definition match_newlines (s : JSString) : option (list JSString) :=
  match filter (fun c => c = 10%N) s with
  | [] => None
  | l => Some ((fun c => [c]) <$> l)
  end.

(** The object pushed for one match. *)
Definition make_issue (rule : Rule.t) (code : JSString) (m : MatchResult) : Issue.t :=
  let matchText := trim (matched code m) in
  let startIndex := index m in
  let lineNumber := length (default [] (match_newlines (slice code 0 startIndex))) + 1 in
  {| Issue.id := Rule.id rule;
     Issue.type := Rule.type rule;
     Issue.title := Rule.title rule;
     Issue.why := Rule.why rule;
     Issue.fix_ := Rule.fix_ rule;
     Issue.severity := Rule.severity rule;
     Issue.occurrence := {| lineNumber := lineNumber;
                            snippet := matchText;
                            charStart := startIndex;
                            charEnd := startIndex + length matchText |} |}.

(** Suppress safe built-in initializers for A003.  [match[1]] is
    [undefined], which no set of strings has, when group 1 took no part. *)
Definition suppressed (rule : Rule.t) (code : JSString) (m : MatchResult) : bool :=
  let initializerName := group code m 1 in
  bool_decide (Rule.id rule = "A003") && Rule.suppressBuiltIns rule &&
  match initializerName with
  | Some name => bool_decide (name ∈ SAFE_USESTATE_INITIALIZERS)
  | None => false
  end.

(** [rule.regex.lastIndex]; a regex object is created with 0 there. *)
Definition lastIndex (σ : gmap string nat) (rule : Rule.t) : nat :=
  default 0 (σ !! Rule.id rule).

(** The [while ((match = rule.regex.exec(code)) !== null)] loop.  Nothing in
    it guards against a match that leaves [lastIndex] where it was, so the
    loop need not end: [None] is a run that is still going after [fuel]
    calls of [exec]. *)
Fixpoint scan (fuel : nat) (rule : Rule.t) (code : JSString)
    (σ : gmap string nat) (acc : list Issue.t)
    : option (list Issue.t * gmap string nat) :=
  match fuel with
  | 0 => None
  | S fuel' =>
      let '(m, li) := exec (Rule.regex rule) code (lastIndex σ rule) in
      let σ' := <[Rule.id rule := li]> σ in
      match m with
      | None => Some (acc, σ')
      | Some m =>
          if suppressed rule code m then scan fuel' rule code σ' acc
          else scan fuel' rule code σ' (acc ++ [make_issue rule code m])
      end
  end.

(** The callback of [ANALYSIS_RULES.forEach]. *)
Definition visit (fuel : nat) (code : JSString) (hasMemoizedComponent : bool)
    (rule : Rule.t) (σ : gmap string nat) (acc : list Issue.t)
    : option (list Issue.t * gmap string nat) :=
  let σ0 := <[Rule.id rule := 0]> σ in
  (* Skip memo-required rules if no memoization exists *)
  if Rule.requiresMemoContext rule && negb hasMemoizedComponent then Some (acc, σ0)
  else scan fuel rule code σ0 acc.

Fixpoint for_each (fuel : nat) (code : JSString) (hasMemoizedComponent : bool)
    (rules : list Rule.t) (σ : gmap string nat) (acc : list Issue.t)
    : option (list Issue.t * gmap string nat) :=
  match rules with
  | [] => Some (acc, σ)
  | rule :: rules' =>
      '(acc', σ') ← visit fuel code hasMemoizedComponent rule σ acc;
      for_each fuel code hasMemoizedComponent rules' σ' acc'
  end.

(** [severityRank[s]]: a number, or [undefined] for any other key. *)
Definition severityRank (s : string) : option Z :=
  if bool_decide (s = "High") then Some 3%Z
  else if bool_decide (s = "Medium") then Some 2%Z
  else if bool_decide (s = "Low") then Some 1%Z
  else if bool_decide (s = "Info") then Some 0%Z
  else None.

(** The comparator handed to [sort].  A difference with [undefined] is NaN,
    which [||] treats like 0. *)
Definition compare_issues (a b : Issue.t) : Z :=
  let by_line := (Z.of_nat (lineNumber (Issue.occurrence a)) -
                  Z.of_nat (lineNumber (Issue.occurrence b)))%Z in
  match severityRank (Issue.severity b), severityRank (Issue.severity a) with
  | Some rb, Some ra => if (rb - ra =? 0)%Z then by_line else (rb - ra)%Z
  | _, _ => by_line
  end.

(** [Array.prototype.sort] is stable: of two elements the comparator does not
    order, the one that came first stays first.  Insertion from the right
    end is one such sort; for a comparator that is a consistent order they
    all return the same array. *)
Section Sort.
Context {A : Type} (cmp : A -> A -> Z).

Fixpoint insert_sorted (a : A) (l : list A) : list A :=
  match l with
  | [] => [a]
  | b :: l' => if (cmp a b <=? 0)%Z then a :: l else b :: insert_sorted a l'
  end.

Fixpoint sort (l : list A) : list A :=
  match l with
  | [] => []
  | a :: l' => insert_sorted a (sort l')
  end.
End Sort.

(** Main analysis function, with [fuel] calls of [exec] allowed to each
    rule, at the instant [now], from the store [σ]. *)
Definition analyze_with (fuel : nat) (now : Z) (σ : gmap string nat) (code : JSValue)
    : option (Report * gmap string nat) :=
  let invalid := ErrorReport now "Error" "Invalid or missing code provided." in
  if negb (truthy code) || negb (bool_decide (typeof code = "string"))
  then Some (invalid, σ)
  else
    match code with
    | JSStringV s =>
        (* Detect memoization context once per file *)
        let hasMemoizedComponent := (test memo_signature s 0).1 in
        '(found, σ') ← for_each fuel s hasMemoizedComponent ANALYSIS_RULES σ [];
        Some (AnalysisReport now
                (if bool_decide (length found = 0) then "Clean" else "Issues Found")
                (length found)
                (sort compare_issues found), σ')
    | _ => Some (invalid, σ)       (* not reached: [typeof code] is "string" *)
    end.

(** Each match of a catalog rule is at least one character long, so a scan
    calls [exec] at most once per character and once more to fail. *)
Definition analyze (now : Z) (σ : gmap string nat) (code : JSValue)
    : option (Report * gmap string nat) :=
  match code with
  | JSStringV s => analyze_with (S (length s)) now σ code
  | _ => analyze_with 0 now σ code
  end.

(** * The callers of the engine *)

(** ** The request handler of the server *)

(** What the handler sends: the object for a request without code, or the
    report of [analyze]. *)
Inductive Payload : Type :=
| MissingCode (error : string) (expectedFormat : string)
| Analysis (report : Report).

Record Response := {
  statusCode : nat;
  payload : Payload
}.

(** [app.post('/analyze', ...)], on the parsed body of the request.
    [req.body.code] is [undefined] when the body has no such key. *)
Definition post_analyze (now : Z) (σ : gmap string nat) (body : gmap string JSValue)
    : option (Response * gmap string nat) :=
  let codeToAnalyze := default JSUndefined (body !! "code"%string) in
  if negb (truthy codeToAnalyze)
  then
    (* Send a 400 Bad Request if 'code' is missing *)
    Some ({| statusCode := 400;
             payload := MissingCode
               (String.append "Missing "
                  (String.append dquote
                     (String.append "code"
                        (String.append dquote " parameter in the request body."))))
               (String.append "{"
                  (String.append dquote
                     (String.append "code"
                        (String.append dquote
                           (String.append ": "
                              (String.append dquote
                                 (String.append "..." (String.append dquote "}")))))))) |},
          σ)
  else
    '(analysisResult, σ') ← analyze now σ codeToAnalyze;
    Some ({| statusCode := 200; payload := Analysis analysisResult |}, σ').

(** ** The page *)

(** The state of the component [App]. *)
Module App.
Record t := {
  code : JSString;
  issues : list Issue.t;
  loading : bool;
  error : string
}.
End App.

(** [useState("")], [useState([])], [useState(false)], [useState("")] *)
Definition initial : App.t :=
  {| App.code := []; App.issues := []; App.loading := false; App.error := EmptyString |}.

(** How [fetch] and [res.json()] end: with an exception, which the [catch]
    takes, or with the response of the server. *)
Inductive Fetched : Type :=
| Failed
| Responded (res : Response).

(** [res.ok] *)
Definition ok (res : Response) : bool :=
  (200 <=? statusCode res) && (statusCode res <=? 299).

(** [data.status], [data.error] and [data.issues]; [None] is [undefined]. *)
Definition data_status (data : Payload) : option string :=
  match data with
  | MissingCode _ _ => None
  | Analysis r => Some (status r)
  end.

Definition data_error (data : Payload) : option string :=
  match data with
  | MissingCode e _ => Some e
  | Analysis r => error r
  end.

Definition data_issues (data : Payload) : option (list Issue.t) :=
  match data with
  | MissingCode _ _ => None
  | Analysis r => issues r
  end.

(** [x || d] for a string or [undefined] [x]: the empty string is falsy. *)
Definition or_string (x : option string) (d : string) : string :=
  match x with
  | Some e => if bool_decide (e = EmptyString) then d else e
  | None => d
  end.

(** [analyzeCode], from the state it is called in to the state it leaves
    when its promise settles; [fetch] is what the request for a given code
    comes to. *)
Definition analyzeCode (fetch : JSString -> Fetched) (st : App.t) : App.t :=
  if negb (truthy (JSStringV (trim (App.code st))))
  then
    {| App.code := App.code st; App.issues := App.issues st;
       App.loading := App.loading st; App.error := "Paste some React code first." |}
  else
    match fetch (App.code st) with
    | Responded res =>
        let data := payload res in
        if negb (ok res) || bool_decide (data_status data = Some "Error"%string)
        then
          {| App.code := App.code st; App.issues := [];
             App.loading := false;
             App.error := or_string (data_error data)
                            "Analysis failed due to a server error." |}
        else
          {| App.code := App.code st;
             App.issues := default [] (data_issues data);
             App.loading := false; App.error := EmptyString |}
    | Failed =>
        {| App.code := App.code st; App.issues := [];
           App.loading := false;
           App.error := "Failed to connect to the analysis server. Is the backend running on port 5000?" |}
    end.

(** The condition under which the page renders its clean message. *)
Definition shows_clean (st : App.t) : bool :=
  negb (App.loading st) && bool_decide (App.error st = EmptyString) &&
  truthy (JSStringV (trim (App.code st))) &&
  bool_decide (length (App.issues st) = 0).

(** The request the page makes, when it reaches the handler and the answer
    comes back: the body is [{code}]. *)
Definition served (now : Z) (σ : gmap string nat) (code : JSString) : Fetched :=
  match post_analyze now σ {[ "code"%string := JSStringV code ]} with
  | Some (res, _) => Responded res
  | None => Failed
  end.

(** * The earlier engine *)

(** The analysis function of the second source file, whose issues carry no
    [id], which has no gate and no allow-list, and which moves the cursor by
    hand after a match of zero width.  Its catalog is a parameter here: one
    of its patterns uses a lazy quantifier and a back-reference, which
    [Regex] does not have. *)
Module Legacy.
Record Issue := {
  type : string;
  title : string;
  why : string;
  fix_ : string;
  severity : string;
  occurrence : Occurrence
}.

Inductive Report : Type :=
| ErrorReport (timestamp : Z) (status : string) (error : string)
| AnalysisReport (timestamp : Z) (status : string) (totalIssues : nat)
    (issues : list Issue).

Definition make_issue (rule : Rule.t) (code : JSString) (m : MatchResult) : Issue :=
  let matchText := trim (matched code m) in
  let startIndex := index m in
  let lineNumber := length (default [] (match_newlines (slice code 0 startIndex))) + 1 in
  {| type := Rule.type rule;
     title := Rule.title rule;
     why := Rule.why rule;
     fix_ := Rule.fix_ rule;
     severity := Rule.severity rule;
     occurrence := {| lineNumber := lineNumber;
                      snippet := matchText;
                      charStart := startIndex;
                      charEnd := startIndex + length matchText |} |}.

(** The [while] loop: after a match that left the cursor at its own start,
    the cursor is moved one further. *)
Fixpoint scan (fuel : nat) (rule : Rule.t) (code : JSString)
    (σ : gmap string nat) (analysisResults : list Issue) (issueCount : nat)
    : option (list Issue * nat * gmap string nat) :=
  match fuel with
  | 0 => None
  | S fuel' =>
      let '(m, li) := exec (Rule.regex rule) code (lastIndex σ rule) in
      match m with
      | None => Some (analysisResults, issueCount, <[Rule.id rule := li]> σ)
      | Some m =>
          let li' := if index m =? li then S li else li in
          scan fuel' rule code (<[Rule.id rule := li']> σ)
            (analysisResults ++ [make_issue rule code m]) (S issueCount)
      end
  end.

Fixpoint for_each (fuel : nat) (code : JSString) (rules : list Rule.t)
    (σ : gmap string nat) (analysisResults : list Issue) (issueCount : nat)
    : option (list Issue * nat * gmap string nat) :=
  match rules with
  | [] => Some (analysisResults, issueCount, σ)
  | rule :: rules' =>
      '(results, count, σ') ←
        scan fuel rule code (<[Rule.id rule := 0]> σ) analysisResults issueCount;
      for_each fuel code rules' σ' results count
  end.

(** [severityOrder[s] || 0] *)
Definition severityOrder (s : string) : Z :=
  if bool_decide (s = "High") then 3%Z
  else if bool_decide (s = "Medium") then 2%Z
  else if bool_decide (s = "Low") then 1%Z
  else 0%Z.

(** Sort by severity (High > Medium > Low) then by line number *)
Definition compare_issues (a b : Issue) : Z :=
  let severityA := severityOrder (severity a) in
  let severityB := severityOrder (severity b) in
  if negb (severityB =? severityA)%Z then (severityB - severityA)%Z
  else (Z.of_nat (lineNumber (occurrence a)) - Z.of_nat (lineNumber (occurrence b)))%Z.

Definition analyze_with (fuel : nat) (rules : list Rule.t) (now : Z)
    (σ : gmap string nat) (code : JSValue) : option (Report * gmap string nat) :=
  let invalid := ErrorReport now "Error" "Invalid or missing code provided." in
  if negb (truthy code) || negb (bool_decide (typeof code = "string"))
  then Some (invalid, σ)
  else
    match code with
    | JSStringV s =>
        '(analysisResults, issueCount, σ') ← for_each fuel s rules σ [] 0;
        Some (AnalysisReport now
                (if bool_decide (0 < issueCount) then "Issues Found" else "Clean")
                issueCount
                (sort compare_issues analysisResults), σ')
    | _ => Some (invalid, σ)       (* not reached: [typeof code] is "string" *)
    end.
End Legacy.

(** An issue of [analyze] without its [id]. *)
Definition without_id (i : Issue.t) : Legacy.Issue :=
  {| Legacy.type := Issue.type i; Legacy.title := Issue.title i;
     Legacy.why := Issue.why i; Legacy.fix_ := Issue.fix_ i;
     Legacy.severity := Issue.severity i;
     Legacy.occurrence := Issue.occurrence i |}.

(** * Notions the properties are stated with *)

(** The code units whose canonical form is that of the ASCII character
    [c]: [c] itself and, under the i flag, its other case. *)
Definition variants (ic : bool) (c : CodeUnit) : list CodeUnit :=
  if ic
  then c :: (if (97 <=? c)%N && (c <=? 122)%N then [(c - 32)%N] else [])
         ++ (if (65 <=? c)%N && (c <=? 90)%N then [(c + 32)%N] else [])
  else [c].

(** The characters a match of [r] can begin with, when [r] cannot match
    without consuming one of them first. *)
Fixpoint head_set (ic : bool) (r : Regex) : option (list CodeUnit) :=
  match r with
  | Chr c => Some (variants ic c)
  | Seq r1 _ => head_set ic r1
  | Alt r1 r2 => l1 ← head_set ic r1; l2 ← head_set ic r2; Some (l1 ++ l2)
  | Group _ r' => head_set ic r'
  | _ => None
  end.

(** The matches a scan meets, one call of [exec] after the other. *)
Fixpoint matches (fuel : nat) (re : RegExp) (code : JSString) (li : nat)
    : option (list MatchResult) :=
  match fuel with
  | 0 => None
  | S fuel' =>
      match exec re code li with
      | (None, _) => Some []
      | (Some m, li') => (m ::.) <$> matches fuel' re code li'
      end
  end.

(** All of them, from a cursor at 0. *)
Definition all_matches (re : RegExp) (code : JSString) : list MatchResult :=
  default [] (matches (S (length code)) re code 0).

(** A match the allow-list of its rule does not suppress. *)
Definition kept (rule : Rule.t) (code : JSString) (m : MatchResult) : Prop :=
  suppressed rule code m = false.

#[local] Instance kept_dec rule code m : Decision (kept rule code m).
Proof. unfold kept. apply _. Defined.

(** A rule whose regex has the g flag and cannot match without consuming a
    character that is not white space. *)
Definition scannable (rule : Rule.t) : bool :=
  global (Rule.regex rule) &&
  match head_set (ignoreCase (Rule.regex rule)) (source (Rule.regex rule)) with
  | Some l => forallb (fun c => negb (is_space c)) l
  | None => false
  end.

(** The issues of one rule, in the order they are pushed. *)
Definition found_for (code : JSString) (hasMemoizedComponent : bool) (rule : Rule.t)
    : list Issue.t :=
  if Rule.requiresMemoContext rule && negb hasMemoizedComponent then []
  else make_issue rule code <$> filter (kept rule code) (all_matches (Rule.regex rule) code).

(** [hasMemoizedComponent] *)
Definition has_memo (code : JSString) : bool := (test memo_signature code 0).1.

(** The array [issues] before it is sorted. *)
Definition found (code : JSString) : list Issue.t :=
  ANALYSIS_RULES ≫= found_for code (has_memo code).

(** The store once every rule of [rules] has been visited. *)
Definition rewound (rules : list Rule.t) (σ : gmap string nat) : gmap string nat :=
  foldl (fun σ rule => <[Rule.id rule := 0]> σ) σ rules.

(** The object of the second [return]. *)
Definition report_of (now : Z) (l : list Issue.t) : Report :=
  AnalysisReport now
    (if bool_decide (length l = 0) then "Clean" else "Issues Found")
    (length l) (sort compare_issues l).

(** The line an issue is reported at. *)
Definition line (i : Issue.t) : nat := lineNumber (Issue.occurrence i).

(** The place of a rule in the catalog. *)
Definition rule_index (ident : string) : option nat :=
  fst <$> list_find (fun rule => Rule.id rule = ident) ANALYSIS_RULES.

(** [a] comes before [b] in catalog order, or they are of one rule and [a]
    was met first by its scan. *)
Definition pushed_before (a b : Issue.t) : Prop :=
  exists pa pb,
    rule_index (Issue.id a) = Some pa /\ rule_index (Issue.id b) = Some pb /\
    (pa < pb \/
     (pa = pb /\ charStart (Issue.occurrence a) < charStart (Issue.occurrence b))).

(** An issue whose severity is a key of [severityRank]. *)
Definition ranked (i : Issue.t) : Prop := is_Some (severityRank (Issue.severity i)).

(** Higher severity first, then the smaller line. *)
Definition not_after (a b : Issue.t) : Prop :=
  exists ra rb,
    severityRank (Issue.severity a) = Some ra /\
    severityRank (Issue.severity b) = Some rb /\
    ((rb < ra)%Z \/ (ra = rb /\ line a <= line b)).

(** The order of a report: severity, line, catalog, scan position. *)
Definition reported_before (a b : Issue.t) : Prop :=
  exists ra rb,
    severityRank (Issue.severity a) = Some ra /\
    severityRank (Issue.severity b) = Some rb /\
    ((rb < ra)%Z \/
     (ra = rb /\ (line a < line b \/ (line a = line b /\ pushed_before a b)))).

(** What the scan of a catalog rule meets: matches of at least one
    character, which begin with one that is not white space, each further
    right than the one before. *)
Definition proper_match (rule : Rule.t) (code : JSString) (m : MatchResult) : Prop :=
  index m < lastEnd m <= length code /\
  (exists c, code !! index m = Some c /\ is_space c = false) /\
  exists li, (exec (Rule.regex rule) code li).1 = Some m.

(** A rule that is not in the catalog: its pattern, [\s*], can match the
    empty string. *)
Definition blank_rule : Rule.t := {|
  Rule.id := "X000"; Rule.type := "blank"; Rule.title := "blank";
  Rule.why := "blank"; Rule.fix_ := "blank"; Rule.severity := "Info";
  Rule.regex := g spaces;
  Rule.requiresMemoContext := false; Rule.suppressBuiltIns := false
|}.

(** What a report shows of an issue: rule, severity, line, offsets. *)
Definition summary (i : Issue.t) : string * string * nat * nat * nat :=
  (Issue.id i, Issue.severity i, lineNumber (Issue.occurrence i),
   charStart (Issue.occurrence i), charEnd (Issue.occurrence i)).

Definition summaries (r : Report) : list (string * string * nat * nat * nat) :=
  match issues r with
  | Some l => summary <$> l
  | None => []
  end.

(** The component of the README, on one line. *)
Definition demo : JSString :=
  lit "function Demo({ value }) { useEffect(() => { console.log(value); }); return <Child onClick={() => console.log("
  ++ lit dquote ++ lit "click" ++ lit dquote ++ lit ")} config={{ mode: "
  ++ lit dquote ++ lit "dark" ++ lit dquote ++ lit " }} />; }".

(** * Properties *)

(** ** Runs of the engine *)

Example demo_report :
  exists r σ',
    analyze 0 ∅ (JSStringV demo) = Some (r, σ') /\
    status r = "Issues Found" /\ totalIssues r = Some 3 /\
    summaries r =
      [("A001", "High", 1, 27, 67); ("B002", "Medium", 1, 120, 145);
       ("B001B", "Info", 1, 83, 119)]%string.
Proof. eexists _, _. split; [vm_compute; reflexivity|]. repeat split. Qed.

Example memoized_two_lines :
  let code := lit "const Child = React.memo (Row);" ++ [10%N]
              ++ lit "<Child key={index} onClick={(e) => pick(e)} />" in
  exists r σ',
    analyze 0 ∅ (JSStringV code) = Some (r, σ') /\
    summaries r =
      [("B001A", "High", 2, 51, 75); ("B003", "High", 2, 39, 50);
       ("B001B", "Info", 2, 51, 75)]%string.
Proof. eexists _, _. split; [vm_compute; reflexivity|]. reflexivity. Qed.

(** ** The matcher *)

Section MatcherFacts.
Context (ic : bool) (input : JSString).

Lemma canonicalize_variants c ch :
  canonicalize ic ch = canonicalize ic c -> ch ∈ variants ic c.
Proof.
  unfold canonicalize, variants. destruct ic; simpl.
  - destruct (N.leb_spec 97 ch), (N.leb_spec ch 122), (N.leb_spec 97 c),
      (N.leb_spec c 122), (N.leb_spec 65 c), (N.leb_spec c 90);
      simpl; intros E; rewrite ?elem_of_cons; try lia;
      try (left; lia); try (right; left; lia); right; right; left; lia.
  - intros ->. apply list_elem_of_singleton. reflexivity.
Qed.

Lemma char_matcher_inv p x y :
  y ∈ char_matcher input p x ->
  exists c, input !! endIndex x = Some c /\ p c = true /\ y = advance x.
Proof.
  unfold char_matcher. destruct (input !! endIndex x) as [c|] eqn:E.
  - destruct (p c) eqn:Hp; intros H.
    + apply list_elem_of_singleton in H. eauto.
    + inversion H.
  - intros H. inversion H.
Qed.

Lemma char_matcher_bounds p x y :
  y ∈ char_matcher input p x -> endIndex x < endIndex y <= length input.
Proof.
  intros (c & E & _ & ->)%char_matcher_inv. apply lookup_lt_Some in E.
  simpl. lia.
Qed.

Lemma repeat_matcher_bounds m gs n :
  (forall x y, endIndex x <= length input -> y ∈ m x ->
               endIndex x <= endIndex y <= length input) ->
  forall x y, endIndex x <= length input -> y ∈ repeat_matcher m gs n x ->
              endIndex x <= endIndex y <= length input.
Proof.
  intros Hm. induction n as [|n IH]; intros x y Hx; simpl.
  - intros ->%list_elem_of_singleton. lia.
  - rewrite elem_of_app, list_elem_of_bind.
    intros [(z & Hy & Hz) | ->%list_elem_of_singleton]; [|lia].
    apply Hm in Hz; [|exact Hx]. simpl in Hz.
    destruct (endIndex z =? endIndex x); [inversion Hy|].
    apply IH in Hy; lia.
Qed.

(** A match never moves backwards and never leaves the input. *)
Lemma matcher_bounds r :
  forall x y, endIndex x <= length input -> y ∈ matcher ic input r x ->
              endIndex x <= endIndex y <= length input.
Proof.
  induction r as [|c|neg rs| | |r1 IH1 r2 IH2|r1 IH1 r2 IH2|r IH|n r IH|r IH];
    intros x y Hx; simpl.
  - intros ->%list_elem_of_singleton. lia.
  - intros H%char_matcher_bounds. lia.
  - intros H%char_matcher_bounds. lia.
  - intros H%char_matcher_bounds. lia.
  - intros H%char_matcher_bounds. lia.
  - rewrite list_elem_of_bind. intros (z & Hy & Hz).
    apply IH1 in Hz; [|exact Hx]. apply IH2 in Hy; lia.
  - rewrite elem_of_app. intros [H|H]; [apply IH1 in H|apply IH2 in H]; lia.
  - apply repeat_matcher_bounds; [exact IH|exact Hx].
  - rewrite list_elem_of_fmap. intros (z & -> & Hz). apply IH in Hz; simpl; lia.
  - destruct (matcher ic input r x); [|intros H; inversion H].
    intros ->%list_elem_of_singleton. lia.
Qed.

(** A regex with a head set consumes a character of that set. *)
Lemma matcher_head r :
  forall l x y, head_set ic r = Some l -> endIndex x <= length input ->
                y ∈ matcher ic input r x ->
                exists c, input !! endIndex x = Some c /\ c ∈ l /\
                          endIndex x < endIndex y.
Proof.
  induction r as [|c|neg rs| | |r1 IH1 r2 IH2|r1 IH1 r2 IH2|r IH|n r IH|r IH];
    intros l x y Hl Hx; simpl in Hl; try discriminate; simpl.
  - injection Hl as <-. intros (ch & E & Hp & ->)%char_matcher_inv.
    exists ch. split; [exact E|]. split; [|simpl; lia].
    apply canonicalize_variants, N.eqb_eq, Hp.
  - rewrite list_elem_of_bind. intros (z & Hy & Hz).
    destruct (IH1 _ _ _ Hl Hx Hz) as (c & E & Hc & Hlt).
    apply matcher_bounds in Hz; [|exact Hx]. apply matcher_bounds in Hy; [|lia].
    exists c. repeat split; [exact E|exact Hc|lia].
  - destruct (head_set ic r1) as [l1|] eqn:E1; [|discriminate].
    destruct (head_set ic r2) as [l2|] eqn:E2; [|discriminate].
    simpl in Hl. injection Hl as <-. rewrite elem_of_app.
    intros [H|H]; [destruct (IH1 _ _ _ eq_refl Hx H) as (c & ? & ? & ?)
                  |destruct (IH2 _ _ _ eq_refl Hx H) as (c & ? & ? & ?)];
      exists c; rewrite elem_of_app; auto.
  - rewrite list_elem_of_fmap. intros (z & -> & Hz).
    destruct (IH _ _ _ Hl Hx Hz) as (c & ? & ? & ?). exists c. simpl. auto.
Qed.

(** The bound given to [repeat_matcher] is never what stops it: any larger
    one gives the same states. *)
Lemma repeat_matcher_enough r gs k :
  forall n x, endIndex x <= length input -> length input - endIndex x <= k ->
              k <= n ->
              repeat_matcher (matcher ic input r) gs n x =
              repeat_matcher (matcher ic input r) gs k x.
Proof.
  induction k as [|k IH]; intros n x Hx Hk Hn.
  - destruct n as [|n]; [reflexivity|]. simpl. f_equal.
    assert (H : forall y, y ∈ matcher ic input r (clear_captures gs x) ->
                          endIndex y = endIndex x).
    { intros y Hy%matcher_bounds; simpl in *; lia. }
    induction (matcher ic input r (clear_captures gs x)) as [|y l IHl];
      [reflexivity|].
    simpl. rewrite (H y) by left. rewrite Nat.eqb_refl. simpl.
    apply IHl. intros z Hz. apply H. right. exact Hz.
  - destruct n as [|n]; [lia|]. simpl. f_equal.
    assert (H : forall y, y ∈ matcher ic input r (clear_captures gs x) ->
                          endIndex x <= endIndex y <= length input).
    { intros y Hy%matcher_bounds; simpl in *; lia. }
    induction (matcher ic input r (clear_captures gs x)) as [|y l IHl];
      [reflexivity|].
    simpl. f_equal.
    + destruct (endIndex y =? endIndex x) eqn:E; [reflexivity|].
      apply Nat.eqb_neq in E. specialize (H y (list_elem_of_here _ _)).
      apply IH; lia.
    + apply IHl. intros z Hz. apply H. right. exact Hz.
Qed.

Lemma match_at_head r l i y :
  head_set ic r = Some l -> i <= length input ->
  match_at ic input r i = Some y ->
  exists c, input !! i = Some c /\ c ∈ l /\ i < endIndex y <= length input.
Proof.
  unfold match_at. intros Hl Hi Hy.
  set (x := {| endIndex := i; captures := ∅ |}) in *.
  assert (Hin : y ∈ matcher ic input r x).
  { destruct (matcher ic input r x); [discriminate|].
    injection Hy as ->. left. }
  destruct (matcher_head r l x y Hl Hi Hin) as (c & ? & ? & ?).
  apply (matcher_bounds r x y Hi) in Hin. exists c. simpl in *.
  repeat split; auto; lia.
Qed.

Lemma match_at_bounds r i y :
  i <= length input -> match_at ic input r i = Some y ->
  i <= endIndex y <= length input.
Proof.
  unfold match_at. intros Hi Hy.
  set (x := {| endIndex := i; captures := ∅ |}) in *.
  assert (Hin : y ∈ matcher ic input r x).
  { destruct (matcher ic input r x); [discriminate|].
    injection Hy as ->. left. }
  apply (matcher_bounds r x y Hi) in Hin. exact Hin.
Qed.

Lemma search_inv r n : forall i j y,
  search ic input r n i = Some (j, y) ->
  i <= j < i + n /\ match_at ic input r j = Some y.
Proof.
  induction n as [|n IH]; intros i j y; simpl; [discriminate|].
  destruct (match_at ic input r i) as [z|] eqn:E.
  - intros [= <- <-]. split; [lia|exact E].
  - intros H%IH. split; [lia|apply H].
Qed.

Lemma search_None r n : forall i,
  (forall j, i <= j < i + n -> match_at ic input r j = None) ->
  search ic input r n i = None.
Proof.
  induction n as [|n IH]; intros i H; simpl; [reflexivity|].
  rewrite (H i) by lia. apply IH. intros j Hj. apply H. lia.
Qed.
End MatcherFacts.

(** ** [exec] and the scan of one rule *)

Lemma exec_Some re code li m li' :
  global re = true ->
  exec re code li = (Some m, li') ->
  li' = lastEnd m /\ li <= index m <= lastEnd m /\ lastEnd m <= length code /\
  match_at (ignoreCase re) code (source re) (index m) =
    Some {| endIndex := lastEnd m; captures := groupRanges m |}.
Proof.
  unfold exec. intros ->. destruct (length code <? li) eqn:E; [discriminate|].
  apply Nat.ltb_ge in E.
  destruct (search _ _ _ _ _) as [[i y]|] eqn:Hs; [|discriminate].
  intros [= <- <-]. simpl. apply search_inv in Hs as [Hi Hy].
  pose proof (match_at_bounds (ignoreCase re) code (source re) i y ltac:(lia) Hy).
  destruct y. simpl in *. repeat split; auto; lia.
Qed.

Lemma exec_None re code li li' :
  global re = true -> exec re code li = (None, li') -> li' = 0.
Proof.
  unfold exec. intros ->. destruct (length code <? li); [congruence|].
  destruct (search _ _ _ _ _) as [[i y]|]; congruence.
Qed.

Lemma exec_head re code li m li' l :
  global re = true -> head_set (ignoreCase re) (source re) = Some l ->
  exec re code li = (Some m, li') ->
  exists c, code !! index m = Some c /\ c ∈ l /\ index m < lastEnd m.
Proof.
  intros Hg Hl (_ & Hb & Hlen & Hm)%exec_Some; [|exact Hg].
  destruct (match_at_head (ignoreCase re) code (source re) l (index m) _ Hl ltac:(lia) Hm)
    as (c & ? & ? & ?).
  exists c. simpl in *. repeat split; auto; lia.
Qed.

(** The scan pushes an issue for each match that is not suppressed, and
    leaves the cursor at 0. *)
Lemma scan_matches rule code fuel : forall σ acc,
  global (Rule.regex rule) = true ->
  scan fuel rule code σ acc =
  (fun ms => (acc ++ (make_issue rule code <$> filter (kept rule code) ms),
              <[Rule.id rule := 0]> σ))
    <$> matches fuel (Rule.regex rule) code (lastIndex σ rule).
Proof.
  induction fuel as [|fuel IH]; intros σ acc Hg; [reflexivity|].
  simpl. destruct (exec _ _ _) as [[m|] li] eqn:E.
  - assert (Hli : lastIndex (<[Rule.id rule := li]> σ) rule = li).
    { unfold lastIndex. rewrite lookup_insert_eq. reflexivity. }
    destruct (suppressed rule code m) eqn:Hs; rewrite IH, Hli by exact Hg;
      destruct (matches fuel _ code li) as [ms|]; simpl; try reflexivity;
      rewrite insert_insert_eq; do 2 f_equal.
    + rewrite filter_cons_False; [reflexivity|]. unfold kept. congruence.
    + rewrite filter_cons_True by exact Hs. rewrite fmap_cons, <- app_assoc.
      reflexivity.
  - apply exec_None in E as ->; [|exact Hg]. simpl.
    rewrite app_nil_r. reflexivity.
Qed.

(** Matches are met from left to right, inside the input, without overlap. *)
Lemma matches_props re code fuel : forall li ms,
  global re = true ->
  matches fuel re code li = Some ms ->
  Forall (fun m => li <= index m <= lastEnd m /\ lastEnd m <= length code /\
                   exists li0, (exec re code li0).1 = Some m) ms /\
  StronglySorted (fun m m' => lastEnd m <= index m') ms.
Proof.
  induction fuel as [|fuel IH]; intros li ms Hg; simpl; [discriminate|].
  destruct (exec re code li) as [[m|] li'] eqn:E.
  - destruct (matches fuel re code li') as [ms'|] eqn:Hms; [|discriminate].
    intros [= <-]. destruct (IH _ _ Hg Hms) as [HF HS].
    pose proof (exec_Some _ _ _ _ _ Hg E) as (-> & Hb & Hlen & _).
    split; constructor.
    + split; [exact Hb|]. split; [exact Hlen|]. exists li. rewrite E. reflexivity.
    + eapply Forall_impl; [exact HF|]. simpl. intros m' (? & ? & ?).
      repeat split; auto; lia.
    + exact HS.
    + eapply Forall_impl; [exact HF|]. simpl. intros m' (? & _). lia.
  - intros [= <-]. split; constructor.
Qed.

Lemma scannable_inv rule :
  scannable rule = true ->
  global (Rule.regex rule) = true /\
  exists l, head_set (ignoreCase (Rule.regex rule)) (source (Rule.regex rule)) = Some l /\
            forall c, c ∈ l -> is_space c = false.
Proof.
  unfold scannable. intros [Hg H]%andb_true_iff. split; [exact Hg|].
  destruct (head_set _ _) as [l|]; [|discriminate]. exists l. split; [reflexivity|].
  intros c Hc%list_elem_of_In. rewrite forallb_forall in H.
  apply H in Hc. destruct (is_space c); [discriminate|reflexivity].
Qed.

Lemma catalog_scannable : Forall (fun rule => scannable rule = true) ANALYSIS_RULES.
Proof. repeat constructor. Qed.

(** For such a rule every match moves the cursor forward, so the scan is
    over within one call of [exec] per character left, plus the one that
    fails. *)
Lemma matches_terminates rule code :
  scannable rule = true ->
  forall n li, length code - li <= n ->
  exists ms,
    (forall fuel, length code - li < fuel ->
                  matches fuel (Rule.regex rule) code li = Some ms) /\
    length ms <= length code - li.
Proof.
  intros (Hg & l & Hl & _)%scannable_inv.
  induction n as [|n IH]; intros li Hn;
    destruct (exec (Rule.regex rule) code li) as [[m|] li'] eqn:E.
  - destruct (exec_head _ _ _ _ _ _ Hg Hl E) as (c & _ & _ & Hlt).
    apply exec_Some in E as (_ & ? & ? & _); [lia|exact Hg].
  - exists []. split; [|simpl; lia].
    intros [|fuel] Hf; [lia|]. simpl. rewrite E. reflexivity.
  - destruct (exec_head _ _ _ _ _ _ Hg Hl E) as (c & _ & _ & Hlt).
    pose proof (exec_Some _ _ _ _ _ Hg E) as (-> & ? & ? & _).
    destruct (IH (lastEnd m) ltac:(lia)) as (ms & Hms & Hlen).
    exists (m :: ms). split; [|simpl; lia].
    intros [|fuel] Hf; [lia|]. simpl. rewrite E, Hms by lia. reflexivity.
  - exists []. split; [|simpl; lia].
    intros [|fuel] Hf; [lia|]. simpl. rewrite E. reflexivity.
Qed.

Lemma matches_all rule code fuel :
  scannable rule = true -> length code < fuel ->
  matches fuel (Rule.regex rule) code 0 = Some (all_matches (Rule.regex rule) code).
Proof.
  intros Hr Hf.
  destruct (matches_terminates rule code Hr (length code) 0 ltac:(lia)) as (ms & Hms & _).
  unfold all_matches. rewrite !Hms by lia. reflexivity.
Qed.

(** ** What [analyze] computes *)

Lemma visit_found fuel code hm rule σ acc :
  scannable rule = true -> length code < fuel ->
  visit fuel code hm rule σ acc =
  Some (acc ++ found_for code hm rule, <[Rule.id rule := 0]> σ).
Proof.
  intros Hr Hf. unfold visit, found_for.
  destruct (Rule.requiresMemoContext rule && negb hm).
  - rewrite app_nil_r. reflexivity.
  - pose proof (scannable_inv _ Hr) as [Hg _].
    rewrite scan_matches by exact Hg. unfold lastIndex.
    rewrite lookup_insert_eq. simpl.
    rewrite matches_all by assumption. simpl. rewrite insert_insert_eq.
    reflexivity.
Qed.

Lemma for_each_found fuel code hm rules : forall σ acc,
  Forall (fun rule => scannable rule = true) rules -> length code < fuel ->
  for_each fuel code hm rules σ acc =
  Some (acc ++ (rules ≫= found_for code hm), rewound rules σ).
Proof.
  induction rules as [|rule rules IH]; intros σ acc Hr Hf; simpl.
  - rewrite app_nil_r. reflexivity.
  - inversion Hr as [|? ? H1 H2]; subst.
    rewrite visit_found by assumption. simpl.
    rewrite IH by assumption. rewrite <- app_assoc. reflexivity.
Qed.

(** On a string that is not empty [analyze_with] returns, whatever fuel it
    is given beyond the length of the input, the sorted issues of the
    catalog's rules, and leaves every cursor at 0. *)
Lemma analyze_with_string fuel now σ s :
  s <> [] -> length s < fuel ->
  analyze_with fuel now σ (JSStringV s) =
  Some (report_of now (found s), rewound ANALYSIS_RULES σ).
Proof.
  intros Hs Hf. unfold analyze_with. cbn [truthy typeof].
  rewrite (bool_decide_eq_false_2 (s = [])) by exact Hs.
  rewrite (bool_decide_eq_true_2 ("string" = "string")) by reflexivity.
  cbn [negb orb].
  rewrite (for_each_found fuel s _ ANALYSIS_RULES σ [] catalog_scannable Hf).
  reflexivity.
Qed.

Lemma analyze_string now σ s :
  s <> [] ->
  analyze now σ (JSStringV s) = Some (report_of now (found s), rewound ANALYSIS_RULES σ).
Proof. intros Hs. apply analyze_with_string; [exact Hs|lia]. Qed.

Lemma analyze_invalid now σ v :
  (forall s, v = JSStringV s -> s = []) ->
  analyze now σ v =
  Some (ErrorReport now "Error" "Invalid or missing code provided.", σ).
Proof.
  intros Hv. destruct v as [| |b|x|s|]; try reflexivity.
  - destruct b; reflexivity.
  - destruct x as [z|]; [destruct (z =? 0)%Z eqn:E|]; unfold analyze, analyze_with;
      simpl; rewrite ?E; reflexivity.
  - rewrite (Hv s eq_refl). reflexivity.
Qed.

(** ** Sorting *)

Section SortFacts.
Context {A : Type} (cmp : A -> A -> Z).

Lemma insert_sorted_perm a l : insert_sorted cmp a l ≡ₚ a :: l.
Proof.
  induction l as [|b l IH]; simpl; [reflexivity|].
  destruct (cmp a b <=? 0)%Z; [reflexivity|].
  rewrite IH. apply Permutation_swap.
Qed.

Lemma sort_perm l : sort cmp l ≡ₚ l.
Proof.
  induction l as [|a l IH]; simpl; [reflexivity|].
  rewrite insert_sorted_perm, IH. reflexivity.
Qed.

Lemma sort_length l : length (sort cmp l) = length l.
Proof. apply Permutation_length, sort_perm. Qed.
End SortFacts.

Lemma StronglySorted_filter {A} (R : relation A) (P : A -> Prop)
    `{!forall x, Decision (P x)} l :
  StronglySorted R l -> StronglySorted R (filter P l).
Proof.
  induction 1 as [|a l Hl IH Ha]; [constructor|].
  rewrite filter_cons. destruct (decide (P a)); [|exact IH].
  constructor; [exact IH|]. apply Forall_forall. intros x [_ Hx]%list_elem_of_filter.
  rewrite Forall_forall in Ha. apply Ha, Hx.
Qed.

Lemma compare_not_after a b :
  ranked a -> ranked b -> (compare_issues a b <= 0)%Z -> not_after a b.
Proof.
  intros [ra Ha] [rb Hb]. unfold compare_issues, not_after. rewrite Ha, Hb.
  fold (line a) (line b). intros H. exists ra, rb. repeat split.
  destruct (Z.eqb_spec (rb - ra) 0); lia.
Qed.

Lemma compare_after a b :
  ranked a -> ranked b -> ~ (compare_issues a b <= 0)%Z -> reported_before b a.
Proof.
  intros [ra Ha] [rb Hb]. unfold compare_issues, reported_before. rewrite Ha, Hb.
  fold (line a) (line b). intros H. exists rb, ra. repeat split.
  destruct (Z.eqb_spec (rb - ra) 0); lia.
Qed.

Lemma not_after_pushed a b :
  not_after a b -> pushed_before a b -> reported_before a b.
Proof.
  intros (ra & rb & Ha & Hb & H) Hp. exists ra, rb. repeat split; auto.
  destruct H as [H|[-> H]]; [left; exact H|right]. split; [reflexivity|].
  destruct (decide (line a = line b)); [right; auto|left; lia].
Qed.

Lemma not_after_reported a b c :
  not_after a b -> reported_before b c -> not_after a c.
Proof.
  intros (ra & rb & Ha & Hb & H) (rb' & rc & Hb' & Hc & H').
  rewrite Hb in Hb'. injection Hb' as <-. exists ra, rc. repeat split; auto. lia.
Qed.

Lemma insert_sorted_reported a l :
  ranked a -> Forall ranked l -> Forall (pushed_before a) l ->
  StronglySorted reported_before l ->
  StronglySorted reported_before (insert_sorted compare_issues a l).
Proof.
  intros Ha Hr Hp Hs. induction Hs as [|b l Hs IH Hb]; simpl.
  - repeat constructor.
  - apply Forall_cons in Hr as [Hrb Hr]. apply Forall_cons in Hp as [Hpb Hp].
    destruct (Z.leb_spec (compare_issues a b) 0) as [Hle|Hgt].
    + pose proof (compare_not_after a b Ha Hrb Hle) as Hab.
      constructor; [constructor; assumption|]. constructor.
      * apply not_after_pushed; assumption.
      * rewrite Forall_forall in Hb, Hp. apply Forall_forall. intros c Hc.
        apply not_after_pushed; [|apply Hp, Hc].
        eapply not_after_reported; [exact Hab|apply Hb, Hc].
    + constructor; [apply IH; assumption|].
      rewrite insert_sorted_perm. constructor; [|exact Hb].
      apply compare_after; [assumption..|lia].
Qed.

(** The sort keeps two issues in the order they were pushed unless their
    severity or line says otherwise. *)
Lemma sort_reported l :
  Forall ranked l -> StronglySorted pushed_before l ->
  StronglySorted reported_before (sort compare_issues l).
Proof.
  intros Hr Hs. induction Hs as [|a l Hs IH Ha]; simpl; [constructor|].
  apply Forall_cons in Hr as [Hra Hr].
  apply insert_sorted_reported; rewrite ?sort_perm; auto.
Qed.

(** ** [trim] *)

Lemma trim_start_drop s : exists k, trim_start s = drop k s.
Proof.
  induction s as [|c s [k IH]]; [exists 0; reflexivity|]. simpl.
  destruct (is_space c); [exists (S k); exact IH|exists 0; reflexivity].
Qed.

Lemma trim_end_take s : exists n, n <= length s /\ trim_end s = take n s.
Proof.
  unfold trim_end. destruct (trim_start_drop (reverse s)) as [k ->].
  rewrite reverse_drop, reverse_involutive, length_reverse.
  exists (length s - k). split; [lia|reflexivity].
Qed.

Lemma trim_length s : length (trim s) <= length s.
Proof.
  unfold trim. destruct (trim_end_take (trim_start s)) as (n & Hn & ->).
  destruct (trim_start_drop s) as [k ->].
  rewrite length_take, length_drop. lia.
Qed.

(** Text that does not begin with white space keeps its beginning. *)
Lemma trim_take s c :
  s !! 0 = Some c -> is_space c = false -> trim s = take (length (trim s)) s.
Proof.
  intros Hc Hs. destruct s as [|c' s]; [discriminate|]. injection Hc as ->.
  unfold trim. simpl. rewrite Hs.
  destruct (trim_end_take (c :: s)) as (n & Hn & ->).
  rewrite length_take_le by exact Hn. reflexivity.
Qed.

Lemma trim_start_spaces s :
  trim_start s = [] -> Forall (fun c => is_space c = true) s.
Proof.
  induction s as [|c s IH]; simpl; [constructor|].
  destruct (is_space c) eqn:E; [|discriminate]. auto.
Qed.

Lemma trim_start_head s c s' : trim_start s = c :: s' -> is_space c = false.
Proof.
  induction s as [|d s IH]; simpl; [discriminate|].
  destruct (is_space d) eqn:E; [exact IH|]. intros [= <- _]. exact E.
Qed.

Lemma trim_nil_spaces s : trim s = [] -> Forall (fun c => is_space c = true) s.
Proof.
  unfold trim, trim_end. intros H.
  apply (f_equal reverse) in H. rewrite reverse_involutive, reverse_nil in H.
  apply trim_start_spaces in H.
  destruct (trim_start s) as [|c s'] eqn:E; [apply trim_start_spaces, E|].
  apply trim_start_head in E. rewrite Forall_forall in H.
  rewrite (H c) in E; [discriminate|]. apply elem_of_reverse. left.
Qed.

(** ** The issues before they are sorted *)

Lemma StronglySorted_strengthen {A} (P : A -> Prop) (R1 R2 : relation A) l :
  (forall a b, P a -> P b -> R1 a b -> R2 a b) ->
  Forall P l -> StronglySorted R1 l -> StronglySorted R2 l.
Proof.
  intros HR HP HS. induction HS as [|a l HS IH Ha]; [constructor|].
  apply Forall_cons in HP as [Hpa HP]. constructor; [auto|].
  rewrite Forall_forall in *. eauto.
Qed.

Lemma all_matches_props rule code :
  scannable rule = true ->
  Forall (proper_match rule code) (all_matches (Rule.regex rule) code) /\
  StronglySorted (fun m m' => index m < index m') (all_matches (Rule.regex rule) code) /\
  length (all_matches (Rule.regex rule) code) <= length code.
Proof.
  intros Hr. pose proof (matches_all rule code (S (length code)) Hr ltac:(lia)) as Hall.
  destruct (matches_terminates rule code Hr (length code) 0 ltac:(lia))
    as (ms & Hms & Hlen).
  rewrite (Hms (S (length code))) in Hall by lia. injection Hall as <-.
  destruct (scannable_inv _ Hr) as (Hg & l & Hl & Hsp).
  destruct (matches_props _ _ _ _ _ Hg (Hms (S (length code)) ltac:(lia))) as [HF HS].
  assert (HP : Forall (proper_match rule code) ms).
  { eapply Forall_impl; [exact HF|]. simpl. intros m (Hb & Hlen' & li & E).
    destruct (exec (Rule.regex rule) code li) as [o li'] eqn:Eli. simpl in E. subst o.
    destruct (exec_head _ _ _ _ _ _ Hg Hl Eli) as (c & Hc & Hin & Hlt).
    split; [lia|]. split; [exists c; auto|]. exists li. rewrite Eli. reflexivity. }
  split; [exact HP|]. split; [|lia].
  eapply StronglySorted_strengthen; [|exact HP|exact HS].
  simpl. intros a b [Ha _] _ Hab. lia.
Qed.

Lemma found_for_elem code hm rule i :
  i ∈ found_for code hm rule ->
  Rule.requiresMemoContext rule && negb hm = false /\
  exists m, i = make_issue rule code m /\ kept rule code m /\
            m ∈ all_matches (Rule.regex rule) code.
Proof.
  unfold found_for. destruct (Rule.requiresMemoContext rule && negb hm).
  - intros H. inversion H.
  - rewrite list_elem_of_fmap. intros (m & -> & [Hk Hm]%list_elem_of_filter).
    split; [reflexivity|]. exists m. auto.
Qed.

Lemma found_for_sorted code hm rule :
  scannable rule = true ->
  StronglySorted (fun a b => charStart (Issue.occurrence a) < charStart (Issue.occurrence b))
    (found_for code hm rule).
Proof.
  intros Hr. unfold found_for.
  destruct (Rule.requiresMemoContext rule && negb hm); [constructor|].
  apply (StronglySorted_fmap _ (fun m m' => index m < index m')); [auto|].
  apply StronglySorted_filter, all_matches_props, Hr.
Qed.

Lemma found_elem code i :
  i ∈ found code <->
  exists rule, rule ∈ ANALYSIS_RULES /\ i ∈ found_for code (has_memo code) rule.
Proof.
  unfold found. rewrite list_elem_of_bind. split; intros (rule & ? & ?); eauto.
Qed.

Lemma catalog_index j rule :
  ANALYSIS_RULES !! j = Some rule ->
  scannable rule = true /\ rule_index (Rule.id rule) = Some j.
Proof.
  do 9 (destruct j as [|j]; [intros [= <-]; split; reflexivity|]). discriminate.
Qed.

Lemma found_pushed_from code hm rules : forall k,
  (forall j rule, rules !! j = Some rule ->
                  scannable rule = true /\ rule_index (Rule.id rule) = Some (k + j)) ->
  StronglySorted pushed_before (rules ≫= found_for code hm) /\
  Forall (fun i => exists p, rule_index (Issue.id i) = Some p /\ k <= p)
    (rules ≫= found_for code hm).
Proof.
  induction rules as [|rule rules IH]; intros k Hk.
  - split; constructor.
  - rewrite bind_cons. destruct (Hk 0 rule eq_refl) as [Hr Hi].
    rewrite Nat.add_0_r in Hi.
    destruct (IH (S k)) as [HS HF].
    { intros j r Hj. destruct (Hk (S j) r Hj) as [? ?].
      split; [assumption|]. replace (S k + j) with (k + S j) by lia. assumption. }
    assert (Hid : forall i, i ∈ found_for code hm rule -> Issue.id i = Rule.id rule).
    { intros i (_ & m & -> & _)%found_for_elem. reflexivity. }
    rewrite Forall_forall in HF. split.
    + apply StronglySorted_app_2; [| |exact HS].
      * intros a b Ha Hb. destruct (HF b Hb) as (pb & Hpb & Hle).
        exists k, pb. rewrite (Hid a Ha).
        split; [exact Hi|]. split; [exact Hpb|]. left. lia.
      * eapply StronglySorted_strengthen;
          [|apply Forall_forall; exact Hid|apply found_for_sorted, Hr].
        simpl. intros a b Ha Hb Hlt. exists k, k. rewrite Ha, Hb. auto.
    + apply Forall_app. split; apply Forall_forall.
      * intros i Hin. exists k. rewrite (Hid i Hin). auto.
      * intros i Hin. destruct (HF i Hin) as (p & ? & ?). exists p. split; [auto|lia].
Qed.

(** Issues are pushed rule after rule, and within a rule from left to
    right. *)
Lemma found_pushed code : StronglySorted pushed_before (found code).
Proof. apply (found_pushed_from code (has_memo code) ANALYSIS_RULES 0), catalog_index. Qed.

Lemma catalog_severity rule :
  rule ∈ ANALYSIS_RULES ->
  Rule.severity rule ∈ ["High"; "Medium"; "Low"; "Info"]%string /\
  is_Some (severityRank (Rule.severity rule)).
Proof.
  unfold ANALYSIS_RULES. intros H. rewrite !elem_of_cons in H.
  repeat (destruct H as [->|H]); try (inversion H; fail);
    (split; [rewrite !elem_of_cons; simpl; auto 10|eexists; reflexivity]).
Qed.

Lemma catalog_elem_scannable rule : rule ∈ ANALYSIS_RULES -> scannable rule = true.
Proof. intros H. pose proof catalog_scannable as HF. rewrite Forall_forall in HF. auto. Qed.

Lemma found_ranked code : Forall ranked (found code).
Proof.
  apply Forall_forall. intros i (rule & Hr & (_ & m & -> & _)%found_for_elem)%found_elem.
  apply catalog_severity, Hr.
Qed.

Lemma StronglySorted_lookup_lt {A} (R : relation A) l : forall j k a b,
  StronglySorted R l -> j < k -> l !! j = Some a -> l !! k = Some b -> R a b.
Proof.
  induction l as [|c l IH]; intros j k a b Hs Hjk Ha Hb; [discriminate|].
  apply StronglySorted_cons in Hs as [Hc Hs].
  destruct k as [|k]; [lia|]. simpl in Hb. destruct j as [|j].
  - injection Ha as <-. rewrite Forall_forall in Hc.
    apply Hc. eapply list_elem_of_lookup_2, Hb.
  - simpl in Ha. apply (IH j k); auto. lia.
Qed.

(** Every issue of a report was pushed for a match of a rule that was not
    skipped, a match the rule's allow-list did not suppress. *)
Lemma reported_issue code i :
  i ∈ sort compare_issues (found code) ->
  exists rule m,
    rule ∈ ANALYSIS_RULES /\
    Rule.requiresMemoContext rule && negb (has_memo code) = false /\
    proper_match rule code m /\ suppressed rule code m = false /\
    i = make_issue rule code m.
Proof.
  rewrite sort_perm.
  intros (rule & Hr & Hi)%found_elem.
  apply found_for_elem in Hi as (Hg & m & -> & Hk & Hm).
  exists rule, m. split; [exact Hr|]. split; [exact Hg|].
  split; [|split; [exact Hk|reflexivity]].
  destruct (all_matches_props rule code (catalog_elem_scannable _ Hr)) as [HF _].
  rewrite Forall_forall in HF. apply HF, Hm.
Qed.

(** ** Input validation *)

(** The two ways a call on a string goes: the empty string takes the first
    [return], any other the second, with the report of [analyze_string]. *)
Ltac run_analyze s Hs :=
  destruct (decide (s = [])) as [->|Hs];
  [eexists _, _; split; [reflexivity|]
  |eexists _, _; split; [apply analyze_string, Hs|]].

Lemma found_blank code :
  Forall (fun c => is_space c = true) code -> found code = [].
Proof.
  intros Hb. destruct (found code) as [|i l] eqn:E; [reflexivity|].
  assert (Hi : i ∈ sort compare_issues (found code)).
  { rewrite sort_perm, E. left. }
  apply reported_issue in Hi as (rule & m & _ & _ & (_ & (c & Hc & Hs) & _) & _).
  rewrite Forall_forall in Hb. rewrite (Hb c) in Hs; [discriminate|].
  eapply list_elem_of_lookup_2, Hc.
Qed.

(** C1, as stated, does not hold: the guard [!code] takes the empty string
    for a missing one, and the report is the error report. *)
Lemma empty_string_is_rejected :
  ~ (exists r σ', analyze 0 ∅ (JSStringV []) = Some (r, σ') /\
                  status r = "Clean" /\ totalIssues r = Some 0).
Proof.
  intros (r & σ' & H & Hs & _). rewrite analyze_invalid in H.
  - injection H as <- _. discriminate Hs.
  - intros s [= <-]. reflexivity.
Qed.

(** C1, amended: the empty string gets the error report; an input that is
    not empty and that trimming empties gets a report with status Clean, no
    issue and a total of 0. *)
Theorem blank_input_is_clean now σ s :
  trim s = [] ->
  (s = [] ->
   analyze now σ (JSStringV s) =
   Some (ErrorReport now "Error" "Invalid or missing code provided.", σ)) /\
  (s <> [] ->
   exists σ', analyze now σ (JSStringV s) = Some (AnalysisReport now "Clean" 0 [], σ')).
Proof.
  intros Ht. split.
  - intros ->. reflexivity.
  - intros Hs. exists (rewound ANALYSIS_RULES σ). rewrite analyze_string by exact Hs.
    rewrite (found_blank s) by apply trim_nil_spaces, Ht. reflexivity.
Qed.

Lemma blank_input_is_clean_witness :
  exists σ', analyze 0 ∅ (JSStringV (lit "  ")) = Some (AnalysisReport 0 "Clean" 0 [], σ').
Proof.
  apply (blank_input_is_clean 0 ∅ (lit "  ")); [reflexivity|discriminate].
Defined.

(** C2: whatever is not a string gets, without fail, the error report: status
    Error, the fixed message, and neither [issues] nor [totalIssues]; the
    store is left as it was. *)
Theorem invalid_input_is_error now σ v :
  (forall s, v <> JSStringV s) ->
  exists r,
    analyze now σ v = Some (r, σ) /\
    r = ErrorReport now "Error" "Invalid or missing code provided." /\
    status r = "Error" /\
    error r = Some "Invalid or missing code provided."%string /\
    issues r = None /\ totalIssues r = None.
Proof.
  intros Hv. eexists. split; [|repeat split].
  apply analyze_invalid. intros s ->. destruct (Hv s eq_refl).
Qed.

Lemma invalid_input_is_error_witness :
  exists r, analyze 0 ∅ JSNull = Some (r, ∅) /\
            r = ErrorReport 0 "Error" "Invalid or missing code provided." /\
            status r = "Error" /\
            error r = Some "Invalid or missing code provided."%string /\
            issues r = None /\ totalIssues r = None.
Proof. apply (invalid_input_is_error 0 ∅ JSNull). discriminate. Defined.

(** ** The shape of a report *)

(** C4, as stated, does not hold for the empty string, which is a string:
    its report has status Error and neither a total nor issues. *)
Lemma empty_string_has_no_total :
  ~ (exists r σ' l, analyze 0 ∅ (JSStringV []) = Some (r, σ') /\
                    issues r = Some l /\ totalIssues r = Some (length l) /\
                    (status r = "Clean" \/ status r = "Issues Found")).
Proof.
  intros (r & σ' & l & H & Hi & _). rewrite analyze_invalid in H.
  - injection H as <- _. discriminate Hi.
  - intros s [= <-]. reflexivity.
Qed.

(** C4, amended: for a string that is not empty the total is the number of
    the issues returned, which are all those that were pushed; the status is
    Clean when there is none and Issues Found otherwise; each severity is one
    of the four. *)
Theorem report_shape now σ s :
  s <> [] ->
  exists r σ' l,
    analyze now σ (JSStringV s) = Some (r, σ') /\
    issues r = Some l /\ totalIssues r = Some (length l) /\
    l ≡ₚ found s /\
    (length l = 0 -> status r = "Clean") /\
    (length l <> 0 -> status r = "Issues Found") /\
    Forall (fun i => Issue.severity i ∈ ["High"; "Medium"; "Low"; "Info"]%string) l.
Proof.
  intros Hs. exists (report_of now (found s)), (rewound ANALYSIS_RULES σ),
    (sort compare_issues (found s)).
  split; [apply analyze_string, Hs|]. split; [reflexivity|].
  unfold report_of. simpl. rewrite sort_length.
  split; [reflexivity|]. split; [apply sort_perm|].
  split; [|split].
  - intros H. rewrite bool_decide_eq_true_2 by exact H. reflexivity.
  - intros H. rewrite bool_decide_eq_false_2 by exact H. reflexivity.
  - apply Forall_forall. intros i (rule & m & Hr & _ & _ & _ & ->)%reported_issue.
    apply catalog_severity, Hr.
Qed.

Lemma report_shape_witness :
  exists r σ' l,
    analyze 0 ∅ (JSStringV (lit "key={i}")) = Some (r, σ') /\
    issues r = Some l /\ totalIssues r = Some (length l) /\
    l ≡ₚ found (lit "key={i}") /\
    (length l = 0 -> status r = "Clean") /\
    (length l <> 0 -> status r = "Issues Found") /\
    Forall (fun i => Issue.severity i ∈ ["High"; "Medium"; "Low"; "Info"]%string) l.
Proof. apply (report_shape 0 ∅ (lit "key={i}")). discriminate. Defined.

(** ** Ranking *)

(** C3: the report returns; its issues, which a string that is not empty
    always gets, are in this order: of two neighbours the first has the
    rank of the second or a higher one under High=3, Medium=2, Low=1,
    Info=0, and with equal ranks its line is not the larger; two issues of
    one rank and one line stay as they were pushed, by catalog place and
    then by position in the input. *)
Theorem issues_are_ranked now σ s :
  exists r σ',
    analyze now σ (JSStringV s) = Some (r, σ') /\
    (s <> [] -> is_Some (issues r)) /\
    (severityRank "High" = Some 3%Z /\ severityRank "Medium" = Some 2%Z /\
     severityRank "Low" = Some 1%Z /\ severityRank "Info" = Some 0%Z) /\
    forall l, issues r = Some l ->
      (forall k a b, l !! k = Some a -> l !! S k = Some b ->
         exists ra rb,
           severityRank (Issue.severity a) = Some ra /\
           severityRank (Issue.severity b) = Some rb /\
           (ra >= rb)%Z /\ (ra = rb -> line a <= line b)) /\
      (forall j k a b, j < k -> l !! j = Some a -> l !! k = Some b ->
         severityRank (Issue.severity a) = severityRank (Issue.severity b) ->
         line a = line b ->
         pushed_before a b).
Proof.
  run_analyze s Hs.
  - split; [intros []; reflexivity|].
    split; [repeat split|]. intros l [=].
  - split; [intros _; eexists; reflexivity|].
    split; [repeat split|]. intros l [= <-].
    pose proof (sort_reported _ (found_ranked s) (found_pushed s)) as Hsort.
    split.
    + intros k a b Ha Hb.
      destruct (StronglySorted_lookup_lt _ _ k (S k) a b Hsort ltac:(lia) Ha Hb)
        as (ra & rb & Hra & Hrb & H).
      exists ra, rb. split; [exact Hra|]. split; [exact Hrb|]. lia.
    + intros j k a b Hjk Ha Hb Heq Hline.
      destruct (StronglySorted_lookup_lt _ _ j k a b Hsort Hjk Ha Hb)
        as (ra & rb & Hra & Hrb & H).
      rewrite Hra, Hrb in Heq. injection Heq as ->.
      destruct H as [H|[_ [H|[_ H]]]]; [lia|lia|exact H].
Qed.

(** ** Gating on the memoization context *)

Lemma all_matches_first rule code m li :
  scannable rule = true ->
  exec (Rule.regex rule) code 0 = (Some m, li) ->
  m ∈ all_matches (Rule.regex rule) code.
Proof.
  intros Hr E. pose proof (matches_all rule code (S (length code)) Hr ltac:(lia)) as H.
  simpl in H. rewrite E in H.
  destruct (matches (length code) (Rule.regex rule) code li) as [ms|]; [|discriminate].
  injection H as <-. left.
Qed.

Lemma catalog_type rule :
  rule ∈ ANALYSIS_RULES -> Rule.type rule = Rule.type B001A -> rule = B001A.
Proof.
  unfold ANALYSIS_RULES. intros H. rewrite !elem_of_cons in H.
  repeat (destruct H as [->|H]); try (inversion H; fail);
    first [reflexivity|discriminate].
Qed.

(** C5: when the input has no [React.memo(] in it, no issue of the report
    is of the type of B001A, whatever its pattern matches; when it has, and
    the pattern of B001A matches somewhere, the report has an issue of
    that type. *)
Theorem memo_gate now σ s :
  exists r σ',
    analyze now σ (JSStringV s) = Some (r, σ') /\
    (has_memo s = false ->
     forall l i, issues r = Some l -> i ∈ l -> Issue.type i <> Rule.type B001A) /\
    (has_memo s = true -> is_Some (exec (Rule.regex B001A) s 0).1 ->
     exists l i, issues r = Some l /\ i ∈ l /\ Issue.type i = Rule.type B001A).
Proof.
  run_analyze s Hs.
  - split; [intros _ l i [=]|discriminate].
  - split.
    + intros Hm l i [= <-] (rule & m & Hr & Hg & _ & _ & ->)%reported_issue Ht.
      apply catalog_type in Ht as ->; [|exact Hr]. rewrite Hm in Hg. discriminate.
    + intros Hm [m Hx]. destruct (exec (Rule.regex B001A) s 0) as [o li] eqn:E.
      simpl in Hx. subst o.
      exists (sort compare_issues (found s)), (make_issue B001A s m).
      split; [reflexivity|]. split; [|reflexivity].
      rewrite sort_perm. apply found_elem. exists B001A.
      split; [unfold ANALYSIS_RULES; rewrite !elem_of_cons; auto|].
      unfold found_for. rewrite Hm. simpl.
      apply list_elem_of_fmap_2, list_elem_of_filter. split; [reflexivity|].
      exact (all_matches_first B001A s m li eq_refl E).
Qed.

Lemma memo_gate_witness :
  let closed := lit "<Child onClick={() => go()} />" in
  let open := lit "React.memo(Child); <Child onClick={() => go()} />" in
  (is_Some (exec (Rule.regex B001A) closed 0).1 /\
   exists r σ', analyze 0 ∅ (JSStringV closed) = Some (r, σ') /\
     forall l i, issues r = Some l -> i ∈ l -> Issue.type i <> Rule.type B001A) /\
  (exists r σ', analyze 0 ∅ (JSStringV open) = Some (r, σ') /\
     exists l i, issues r = Some l /\ i ∈ l /\ Issue.type i = Rule.type B001A).
Proof.
  intros closed open. split.
  - split; [eexists; vm_compute; reflexivity|].
    destruct (memo_gate 0 ∅ closed) as (r & σ' & H & Ha & _).
    exists r, σ'. split; [exact H|]. apply Ha. vm_compute. reflexivity.
  - destruct (memo_gate 0 ∅ open) as (r & σ' & H & _ & Hb).
    exists r, σ'. split; [exact H|].
    apply Hb; [|eexists]; vm_compute; reflexivity.
Defined.

(** ** Suppression of the safe initializers *)

Lemma filter_all {A} (P : A -> Prop) `{!forall x, Decision (P x)} l :
  Forall P l -> filter P l = l.
Proof.
  induction 1 as [|a l Ha _ IH]; [reflexivity|].
  rewrite filter_cons_True by exact Ha. rewrite IH. reflexivity.
Qed.

Lemma filter_none {A} (P : A -> Prop) `{!forall x, Decision (P x)} l :
  Forall (fun a => ~ P a) l -> filter P l = [].
Proof.
  induction 1 as [|a l Ha _ IH]; [reflexivity|].
  rewrite filter_cons_False by exact Ha. exact IH.
Qed.

Lemma found_for_id code hm rule :
  Forall (fun i => Issue.id i = Rule.id rule) (found_for code hm rule).
Proof.
  apply Forall_forall. intros i (_ & m & -> & _)%found_for_elem. reflexivity.
Qed.

(** The issues of A003 among those pushed are those of its own scan. *)
Lemma found_A003 code :
  filter (fun i => Issue.id i = "A003") (found code) =
  make_issue A003 code <$>
    filter (fun m => suppressed A003 code m = false) (all_matches (Rule.regex A003) code).
Proof.
  assert (Hother : forall rule, Rule.id rule <> "A003" ->
            filter (fun i => Issue.id i = "A003") (found_for code (has_memo code) rule) = []).
  { intros rule Hne. apply filter_none.
    eapply Forall_impl; [apply found_for_id|]. simpl. congruence. }
  unfold found, ANALYSIS_RULES. rewrite !bind_cons, !filter_app.
  change (@nil Rule.t ≫= found_for code (has_memo code)) with (@nil Issue.t).
  rewrite (Hother A001), (Hother A002), (Hother B001A), (Hother B001B),
    (Hother B002), (Hother B003), (Hother C001), (Hother C002) by discriminate.
  rewrite (filter_all _ _ (found_for_id code _ A003)), filter_nil.
  rewrite !app_nil_l, app_nil_r. reflexivity.
Qed.

(** C6: the scan of A003 drops a match exactly when the text of its first
    group is, letter for letter, in the allow-list; the issues of A003 in a
    report, and so their share of the total, are those of the matches that
    were not dropped.  [useState(Number)] is matched and dropped, and the
    report is clean; [useState(number)] is not in the list;
    [useState(myInitializerRef)] gives one issue of A003, for the match that
    captures [myInitializerRef]. *)
Theorem safe_initializers_are_suppressed :
  (forall code m,
     suppressed A003 code m = true <->
     exists name, group code m 1 = Some name /\ name ∈ SAFE_USESTATE_INITIALIZERS) /\
  (forall name, name ∈ SAFE_USESTATE_INITIALIZERS <->
                name ∈ lit <$> ["Number"; "String"; "Boolean"; "Object"; "Array"; "Date"]%string) /\
  (forall now σ s r σ' l,
     analyze now σ (JSStringV s) = Some (r, σ') -> issues r = Some l ->
     totalIssues r = Some (length l) /\
     filter (fun i => Issue.id i = "A003") l ≡ₚ
     make_issue A003 s <$>
       filter (fun m => suppressed A003 s m = false) (all_matches (Rule.regex A003) s)) /\
  (forall now σ,
     let code := lit "useState(Number)" in
     exists σ' m,
       (exec (Rule.regex A003) code 0).1 = Some m /\
       group code m 1 = Some (lit "Number") /\
       analyze now σ (JSStringV code) = Some (AnalysisReport now "Clean" 0 [], σ')) /\
  (forall now σ,
     let code := lit "useState(number)" in
     exists σ' m,
       (exec (Rule.regex A003) code 0).1 = Some m /\
       analyze now σ (JSStringV code) =
       Some (AnalysisReport now "Issues Found" 1 [make_issue A003 code m], σ')) /\
  (forall now σ,
     let code := lit "useState(myInitializerRef)" in
     exists σ' m,
       (exec (Rule.regex A003) code 0).1 = Some m /\
       group code m 1 = Some (lit "myInitializerRef") /\
       snippet (Issue.occurrence (make_issue A003 code m)) = code /\
       analyze now σ (JSStringV code) =
       Some (AnalysisReport now "Issues Found" 1 [make_issue A003 code m], σ')).
Proof.
  split; [|split; [|split; [|split; [|split]]]].
  - intros code m. unfold suppressed. simpl. destruct (group code m 1) as [name|].
    + rewrite bool_decide_eq_true. split; [eauto|]. intros (? & [= <-] & H). exact H.
    + split; [discriminate|]. intros (? & [=] & _).
  - intros name. unfold SAFE_USESTATE_INITIALIZERS. apply elem_of_list_to_set.
  - intros now σ s r σ' l H Hl. destruct (decide (s = [])) as [->|Hs].
    + injection H as <- _. discriminate Hl.
    + rewrite analyze_string in H by exact Hs. injection H as <- _.
      injection Hl as <-. split; [simpl; rewrite sort_length; reflexivity|].
      rewrite sort_perm, found_A003. reflexivity.
  - intros now σ code. eexists _, _. split; [vm_compute; reflexivity|].
    split; [vm_compute; reflexivity|].
    rewrite analyze_string by discriminate.
    replace (found code) with (@nil Issue.t) by (vm_compute; reflexivity).
    reflexivity.
  - intros now σ code. eexists _, _. split; [vm_compute; reflexivity|].
    rewrite analyze_string by discriminate.
    match goal with |- context [make_issue A003 code ?m] =>
      replace (found code) with [make_issue A003 code m] by (vm_compute; reflexivity)
    end. reflexivity.
  - intros now σ code. eexists _, _. split; [vm_compute; reflexivity|].
    split; [vm_compute; reflexivity|]. split; [vm_compute; reflexivity|].
    rewrite analyze_string by discriminate.
    match goal with |- context [make_issue A003 code ?m] =>
      replace (found code) with [make_issue A003 code m] by (vm_compute; reflexivity)
    end. reflexivity.
Qed.

(** ** Occurrences *)

Lemma matched_length code m :
  lastEnd m <= length code -> length (matched code m) = lastEnd m - index m.
Proof.
  intros H. unfold matched, slice. rewrite length_take, length_drop. lia.
Qed.

Lemma matched_head code m :
  index m < lastEnd m -> matched code m !! 0 = code !! index m.
Proof.
  intros H. unfold matched, slice. rewrite lookup_take_lt by lia.
  rewrite lookup_drop. f_equal. lia.
Qed.

Lemma newlines_length s :
  length (default [] (match_newlines s)) = length (filter (fun c => c = 10%N) s).
Proof.
  unfold match_newlines. destruct (filter _ s) as [|c l]; [reflexivity|].
  simpl. rewrite length_fmap. reflexivity.
Qed.

(** The trimmed text of a proper match is the input from the start of the
    match on. *)
Lemma snippet_slice rule code m :
  proper_match rule code m ->
  trim (matched code m) =
  slice code (index m) (index m + length (trim (matched code m))).
Proof.
  intros ([Hlt Hlen] & (c & Hc & Hs) & _).
  assert (Hn : length (trim (matched code m)) <= lastEnd m - index m).
  { rewrite <- (matched_length code m Hlen). apply trim_length. }
  rewrite (trim_take (matched code m) c) at 1;
    [|rewrite (matched_head code m Hlt); exact Hc|exact Hs].
  unfold matched at 2, slice. rewrite take_take.
  f_equal. lia.
Qed.

(** C7, as stated, does not hold: the match of C001 takes the white space
    after [<img] with it, the snippet is trimmed, and [charEnd], counted
    from the snippet, stops short of the end of the match. *)
Lemma trailing_space_is_not_spanned :
  let code := lit "<img src=a.png>" in
  exists σ' m,
    (exec (Rule.regex C001) code 0).1 = Some m /\
    analyze 0 ∅ (JSStringV code) =
      Some (AnalysisReport 0 "Issues Found" 1 [make_issue C001 code m], σ') /\
    matched code m = lit "<img " /\
    snippet (Issue.occurrence (make_issue C001 code m)) = lit "<img" /\
    charStart (Issue.occurrence (make_issue C001 code m)) = index m /\
    charEnd (Issue.occurrence (make_issue C001 code m)) <> lastEnd m.
Proof.
  intros code. eexists _, _. split; [vm_compute; reflexivity|].
  split; [|split; [|split; [|split]]]; try (vm_compute; reflexivity).
  vm_compute. discriminate.
Qed.

(** C7, amended: every reported occurrence was pushed for a match of a
    catalog rule; its line is one more than the number of line feeds before
    the start of the match; its snippet is the trimmed text of the match;
    [charStart] is the start of the match, and [charEnd] is [charStart] plus
    the length of the snippet, so that the two delimit the snippet in the
    input; [charEnd] is the end of the match exactly when trimming removed
    nothing, and lies before it otherwise. *)
Theorem occurrence_of_match now σ s :
  exists r σ',
    analyze now σ (JSStringV s) = Some (r, σ') /\
    forall l i, issues r = Some l -> i ∈ l ->
      exists rule m li,
        rule ∈ ANALYSIS_RULES /\ (exec (Rule.regex rule) s li).1 = Some m /\
        let o := Issue.occurrence i in
        lineNumber o = 1 + length (filter (fun c => c = 10%N) (take (index m) s)) /\
        snippet o = trim (matched s m) /\
        charStart o = index m /\
        charEnd o = charStart o + length (snippet o) /\
        snippet o = slice s (charStart o) (charEnd o) /\
        charEnd o <= lastEnd m /\
        (charEnd o = lastEnd m <-> trim (matched s m) = matched s m).
Proof.
  run_analyze s Hs.
  - intros l i [=].
  - intros l i [= <-] (rule & m & Hr & _ & Hm & _ & ->)%reported_issue.
    pose proof Hm as ([Hlt Hlen] & _ & li & Hli).
    exists rule, m, li. split; [exact Hr|]. split; [exact Hli|]. simpl.
    assert (Hn : length (trim (matched s m)) <= lastEnd m - index m).
    { rewrite <- (matched_length s m Hlen). apply trim_length. }
    split; [|split; [|split; [|split; [|split; [|split]]]]]; try reflexivity.
    + rewrite newlines_length. unfold slice. rewrite Nat.sub_0_r.
      change (drop 0 s) with s. lia.
    + eapply snippet_slice, Hm.
    + lia.
    + split.
      * intros E. rewrite (snippet_slice rule s m Hm). unfold matched.
        f_equal. exact E.
      * intros ->. rewrite matched_length by exact Hlen. lia.
Qed.

Lemma occurrence_of_match_witness :
  exists r σ' i,
    analyze 0 ∅ (JSStringV (lit "key={i}")) = Some (r, σ') /\
    issues r = Some [i] /\
    exists rule m li,
      rule ∈ ANALYSIS_RULES /\
      (exec (Rule.regex rule) (lit "key={i}") li).1 = Some m /\
      charStart (Issue.occurrence i) = index m /\
      snippet (Issue.occurrence i) =
        slice (lit "key={i}") (charStart (Issue.occurrence i))
          (charEnd (Issue.occurrence i)).
Proof.
  destruct (occurrence_of_match 0 ∅ (lit "key={i}")) as (r & σ' & H & Hall).
  exists r, σ'. rewrite H. rewrite analyze_string in H by discriminate.
  injection H as <- <-. eexists. split; [reflexivity|].
  split; [vm_compute; reflexivity|].
  edestruct Hall as (rule & m & li & Hr & Hm & _ & _ & Hst & _ & Hsl & _);
    [vm_compute; reflexivity|left|].
  exists rule, m, li. auto.
Defined.

(** C10: in every issue of a report the line is at least 1, the two offsets
    are in order and inside the input, and they are as far apart as the
    snippet is long. *)
Theorem occurrence_bounds now σ s :
  exists r σ',
    analyze now σ (JSStringV s) = Some (r, σ') /\
    forall l i, issues r = Some l -> i ∈ l ->
      let o := Issue.occurrence i in
      1 <= lineNumber o /\
      0 <= charStart o /\ charStart o <= charEnd o /\ charEnd o <= length s /\
      charEnd o - charStart o = length (snippet o).
Proof.
  run_analyze s Hs.
  - intros l i [=].
  - intros l i [= <-] (rule & m & _ & _ & ([Hlt Hlen] & _) & _ & ->)%reported_issue.
    simpl. pose proof (trim_length (matched s m)) as Hn.
    rewrite (matched_length s m Hlen) in Hn. lia.
Qed.

Lemma occurrence_bounds_witness :
  exists i,
    (fst <$> analyze 0 ∅ (JSStringV (lit "<img src=a.png>"))) =
      Some (AnalysisReport 0 "Issues Found" 1 [i]) /\
    1 <= lineNumber (Issue.occurrence i) /\
    charEnd (Issue.occurrence i) <= 15 /\
    charEnd (Issue.occurrence i) - charStart (Issue.occurrence i) =
      length (snippet (Issue.occurrence i)).
Proof.
  destruct (occurrence_bounds 0 ∅ (lit "<img src=a.png>")) as (r & σ' & H & Hall).
  rewrite H. rewrite analyze_string in H by discriminate. injection H as <- <-.
  eexists. split; [vm_compute; reflexivity|].
  edestruct Hall as (H1 & _ & _ & H2 & H3); [vm_compute; reflexivity|left|].
  auto.
Defined.

(** ** Determinism *)

Lemma rewound_lastIndex rules rule : forall σ,
  rule ∈ rules -> lastIndex (rewound rules σ) rule = 0.
Proof.
  induction rules as [|r rules IH] using rev_ind; intros σ Hr; [inversion Hr|].
  unfold rewound, lastIndex in *. rewrite foldl_app. simpl.
  destruct (decide (Rule.id r = Rule.id rule)) as [E|E].
  - rewrite E, lookup_insert_eq. reflexivity.
  - rewrite lookup_insert_ne by exact E. apply IH.
    apply elem_of_app in Hr as [Hr|Hr%list_elem_of_singleton]; congruence.
Qed.

Lemma string_or_not v :
  (exists s, v = JSStringV s /\ s <> []) \/ (forall s, v = JSStringV s -> s = []).
Proof.
  destruct v as [| | | |s|]; try (right; discriminate).
  destruct (decide (s = [])) as [->|Hs]; [right; congruence|left; eauto].
Qed.

(** A report owes nothing but its timestamp to the instant and nothing to
    the cursors the regex objects were left with. *)
Lemma analyze_independent now1 now2 σ1 σ2 v :
  exists r1 σ1' r2 σ2',
    analyze now1 σ1 v = Some (r1, σ1') /\ analyze now2 σ2 v = Some (r2, σ2') /\
    status r1 = status r2 /\ totalIssues r1 = totalIssues r2 /\
    issues r1 = issues r2 /\ error r1 = error r2.
Proof.
  destruct (string_or_not v) as [(s & -> & Hs)|Hv].
  - eexists _, _, _, _. rewrite !analyze_string by exact Hs.
    repeat split; reflexivity.
  - eexists _, _, _, _. rewrite !analyze_invalid by exact Hv.
    repeat split; reflexivity.
Qed.

(** C8: two calls with one input, the second from the store the first one
    left and at another instant, return the same status, the same total and
    the same issues in the same order (or the same error). *)
Theorem analyze_twice now1 now2 σ v :
  exists r1 σ1 r2 σ2,
    analyze now1 σ v = Some (r1, σ1) /\
    analyze now2 σ1 v = Some (r2, σ2) /\
    status r1 = status r2 /\ totalIssues r1 = totalIssues r2 /\
    issues r1 = issues r2 /\ error r1 = error r2.
Proof.
  destruct (analyze_independent now1 now1 σ σ v) as (r1 & σ1 & _ & _ & H1 & _).
  destruct (analyze_independent now1 now2 σ σ1 v)
    as (r1' & σ1' & r2 & σ2 & H1' & H2 & H).
  rewrite H1 in H1'. injection H1' as <- <-.
  exists r1, σ1, r2, σ2. auto.
Qed.

(** ** Termination of the scan *)

(** C9: the scan of a catalog rule ends, with any fuel above the length of
    the input and whatever the store, having pushed no more issues than the
    input has characters; each call of [exec] that finds a match leaves the
    cursor at the end of the match, at least one character beyond the start
    of the match and so beyond where the call began: no match of a catalog
    rule is of zero width. *)
Theorem scan_terminates rule s σ acc :
  rule ∈ ANALYSIS_RULES ->
  (exists occurrences,
     (forall fuel, length s < fuel ->
        scan fuel rule s σ acc = Some (acc ++ occurrences, <[Rule.id rule := 0]> σ)) /\
     length occurrences <= length s) /\
  (forall li m li',
     exec (Rule.regex rule) s li = (Some m, li') ->
     li' = lastEnd m /\ li <= index m /\ index m + 1 <= lastEnd m /\ li + 1 <= li').
Proof.
  intros Hr%catalog_elem_scannable.
  destruct (scannable_inv _ Hr) as (Hg & hs & Hhs & _). split.
  - destruct (matches_terminates rule s Hr (length s) (lastIndex σ rule) ltac:(lia))
      as (ms & Hms & Hlen).
    exists (make_issue rule s <$> filter (kept rule s) ms). split.
    + intros fuel Hf. rewrite scan_matches by exact Hg.
      rewrite Hms by lia. reflexivity.
    + rewrite length_fmap. pose proof (length_filter (kept rule s) ms). lia.
  - intros li m li' E.
    destruct (exec_head _ _ _ _ _ _ Hg Hhs E) as (c & _ & _ & Hlt).
    apply exec_Some in E as (-> & ? & _); [lia|exact Hg].
Qed.

Lemma scan_terminates_witness :
  (exists occurrences,
     (forall fuel, length (lit "key={i} key={index}") < fuel ->
        scan fuel B003 (lit "key={i} key={index}") ∅ [] =
        Some ([] ++ occurrences, <[Rule.id B003 := 0]> ∅)) /\
     length occurrences <= length (lit "key={i} key={index}")) /\
  (forall li m li',
     exec (Rule.regex B003) (lit "key={i} key={index}") li = (Some m, li') ->
     li' = lastEnd m /\ li <= index m /\ index m + 1 <= lastEnd m /\ li + 1 <= li').
Proof.
  apply (scan_terminates B003 (lit "key={i} key={index}") ∅ []).
  unfold ANALYSIS_RULES. rewrite !elem_of_cons. auto 10.
Defined.

(** The loop owes its end to the catalog.  Nothing in it moves the cursor
    after a match of zero width: on a rule whose pattern can match the empty
    string [exec] returns the same empty match again and again. *)
Lemma scan_of_empty_match_never_ends fuel σ acc :
  lastIndex σ blank_rule = 0 -> scan fuel blank_rule (lit "x") σ acc = None.
Proof.
  intros Hσ. rewrite scan_matches by reflexivity. rewrite Hσ.
  replace (matches fuel (Rule.regex blank_rule) (lit "x") 0) with (@None (list MatchResult));
    [reflexivity|].
  induction fuel as [|fuel IH]; [reflexivity|].
  change (matches (S fuel) (Rule.regex blank_rule) (lit "x") 0)
    with (match exec (Rule.regex blank_rule) (lit "x") 0 with
          | (None, _) => Some []
          | (Some m, li') => (m ::.) <$> matches fuel (Rule.regex blank_rule) (lit "x") li'
          end).
  replace (exec (Rule.regex blank_rule) (lit "x") 0)
    with (Some {| index := 0; lastEnd := 0; groupRanges := ∅ |}, 0)
    by (vm_compute; reflexivity).
  rewrite <- IH. reflexivity.
Qed.

(** * Further properties of the engine *)

(** What a report with issues says of the call that returned it. *)
Lemma analyze_issues now σ s r σ' l :
  analyze now σ (JSStringV s) = Some (r, σ') -> issues r = Some l ->
  s <> [] /\ r = report_of now (found s) /\ l = sort compare_issues (found s) /\
  σ' = rewound ANALYSIS_RULES σ.
Proof.
  intros H Hl. destruct (decide (s = [])) as [->|Hs].
  - injection H as <- _. discriminate Hl.
  - rewrite analyze_string in H by exact Hs. injection H as <- <-.
    injection Hl as <-. auto.
Qed.

Lemma catalog_id_inj rule rule' :
  rule ∈ ANALYSIS_RULES -> rule' ∈ ANALYSIS_RULES ->
  Rule.id rule = Rule.id rule' -> rule = rule'.
Proof.
  intros [j Hj]%list_elem_of_lookup_1 [j' Hj']%list_elem_of_lookup_1 E.
  pose proof (catalog_index _ _ Hj) as [_ H]. pose proof (catalog_index _ _ Hj') as [_ H'].
  rewrite E, H' in H. injection H as ->. congruence.
Qed.

Lemma pushed_before_irrefl a : ~ pushed_before a a.
Proof. intros (pa & pb & Ha & Hb & H). rewrite Ha in Hb. injection Hb as <-. lia. Qed.

Lemma StronglySorted_NoDup {A} (R : relation A) l :
  (forall a, ~ R a a) -> StronglySorted R l -> NoDup l.
Proof.
  intros Hirr. induction 1 as [|a l _ IH Ha]; constructor; [|exact IH].
  intros Hin. rewrite Forall_forall in Ha. exact (Hirr a (Ha a Hin)).
Qed.

Lemma StronglySorted_elem_of {A} (R : relation A) l a b :
  StronglySorted R l -> a ∈ l -> b ∈ l -> a = b \/ R a b \/ R b a.
Proof.
  induction 1 as [|c l _ IH Hc]; intros Ha Hb; [inversion Ha|].
  rewrite Forall_forall in Hc.
  apply elem_of_cons in Ha as [->|Ha]; apply elem_of_cons in Hb as [->|Hb]; auto.
Qed.

(** The issue pushed for a match of a catalog rule that is reported. *)
Lemma reported_match code i :
  i ∈ sort compare_issues (found code) ->
  exists rule m,
    rule ∈ ANALYSIS_RULES /\ m ∈ all_matches (Rule.regex rule) code /\
    proper_match rule code m /\ i = make_issue rule code m.
Proof.
  rewrite sort_perm. intros (rule & Hr & Hi)%found_elem.
  apply found_for_elem in Hi as (_ & m & -> & _ & Hm).
  exists rule, m. split; [exact Hr|]. split; [exact Hm|]. split; [|reflexivity].
  destruct (all_matches_props rule code (catalog_elem_scannable _ Hr)) as [HF _].
  rewrite Forall_forall in HF. apply HF, Hm.
Qed.

(** No issue is listed twice: two entries of a report differ in their rule
    or in where their match starts. *)
Theorem report_has_no_duplicates now σ s r σ' l :
  analyze now σ (JSStringV s) = Some (r, σ') -> issues r = Some l ->
  NoDup l /\
  forall j k a b, l !! j = Some a -> l !! k = Some b -> j <> k ->
    Issue.id a <> Issue.id b \/
    charStart (Issue.occurrence a) <> charStart (Issue.occurrence b).
Proof.
  intros H Hl. destruct (analyze_issues _ _ _ _ _ _ H Hl) as (_ & _ & -> & _).
  assert (Hnd : NoDup (sort compare_issues (found s))).
  { rewrite sort_perm. eapply StronglySorted_NoDup;
      [apply pushed_before_irrefl|apply found_pushed]. }
  split; [exact Hnd|]. intros j k a b Ha Hb Hjk.
  assert (Hab : a <> b).
  { intros ->. apply Hjk. eapply NoDup_lookup; eauto. }
  destruct (decide (Issue.id a = Issue.id b)) as [E|E]; [right|left; exact E].
  intros Hst. apply Hab.
  apply list_elem_of_lookup_2 in Ha, Hb.
  rewrite sort_perm in Ha, Hb.
  destruct (StronglySorted_elem_of _ _ a b (found_pushed s) Ha Hb)
    as [->|[(pa & pb & Hpa & Hpb & Hp)|(pa & pb & Hpa & Hpb & Hp)]];
    [reflexivity| |]; rewrite ?E in Hpa; rewrite ?E in Hpb; rewrite Hpa in Hpb;
    injection Hpb as <-; lia.
Qed.

Lemma report_has_no_duplicates_witness :
  exists r σ' l,
    analyze 0 ∅ (JSStringV demo) = Some (r, σ') /\ issues r = Some l /\
    NoDup l /\
    forall j k a b, l !! j = Some a -> l !! k = Some b -> j <> k ->
      Issue.id a <> Issue.id b \/
      charStart (Issue.occurrence a) <> charStart (Issue.occurrence b).
Proof.
  eexists _, _, _. split; [vm_compute; reflexivity|]. split; [reflexivity|].
  eapply (report_has_no_duplicates 0 ∅ demo); [vm_compute; reflexivity|reflexivity].
Defined.

(** Two issues of one rule never overlap: one ends, at the latest, where the
    other starts. *)
Theorem occurrences_of_a_rule_are_disjoint now σ s r σ' l j k a b :
  analyze now σ (JSStringV s) = Some (r, σ') -> issues r = Some l ->
  l !! j = Some a -> l !! k = Some b -> j <> k -> Issue.id a = Issue.id b ->
  charEnd (Issue.occurrence a) <= charStart (Issue.occurrence b) \/
  charEnd (Issue.occurrence b) <= charStart (Issue.occurrence a).
Proof.
  intros H Hl Ha Hb Hjk E.
  destruct (analyze_issues _ _ _ _ _ _ H Hl) as (_ & _ & -> & _).
  assert (Hab : a <> b).
  { intros ->. apply Hjk. eapply NoDup_lookup; [|exact Ha|exact Hb].
    rewrite sort_perm. eapply StronglySorted_NoDup;
      [apply pushed_before_irrefl|apply found_pushed]. }
  apply list_elem_of_lookup_2 in Ha, Hb.
  apply reported_match in Ha as (rule & ma & Hr & Hma & ([Hia Hla] & _) & ->).
  apply reported_match in Hb as (rule' & mb & Hr' & Hmb & ([Hib Hlb] & _) & ->).
  simpl in E. apply (catalog_id_inj _ _ Hr Hr') in E as <-.
  assert (HS : StronglySorted (fun m m' => lastEnd m <= index m')
                 (all_matches (Rule.regex rule) s)).
  { pose proof (catalog_elem_scannable _ Hr) as Hsc.
    destruct (scannable_inv _ Hsc) as (Hg & _).
    eapply matches_props; [exact Hg|apply (matches_all rule s (S (length s)) Hsc); lia]. }
  pose proof (trim_length (matched s ma)) as Hna.
  pose proof (trim_length (matched s mb)) as Hnb.
  rewrite (matched_length s ma Hla) in Hna. rewrite (matched_length s mb Hlb) in Hnb.
  destruct (StronglySorted_elem_of _ _ ma mb HS Hma Hmb) as [->|[Hle|Hle]];
    [destruct Hab; reflexivity|left|right]; simpl; lia.
Qed.

Lemma occurrences_of_a_rule_are_disjoint_witness :
  let code := lit "key={i} key={index}" in
  exists a b,
    (issues ∘ fst <$> analyze 0 ∅ (JSStringV code)) = Some (Some [a; b]) /\
    (charEnd (Issue.occurrence a) <= charStart (Issue.occurrence b) \/
     charEnd (Issue.occurrence b) <= charStart (Issue.occurrence a)).
Proof.
  intros code. eexists _, _. split; [vm_compute; reflexivity|].
  eapply (occurrences_of_a_rule_are_disjoint 0 ∅ code _ _ _ 0 1);
    [vm_compute; reflexivity|reflexivity|reflexivity|reflexivity|lia|reflexivity].
Defined.

(** ** The issues of one rule *)

Lemma found_filter_bind code hm x rules :
  filter (fun i => Issue.id i = x) (rules ≫= found_for code hm) =
  filter (fun rule => Rule.id rule = x) rules ≫= found_for code hm.
Proof.
  induction rules as [|rule rules IH]; [reflexivity|].
  rewrite bind_cons, filter_app, IH, filter_cons.
  destruct (decide (Rule.id rule = x)) as [<-|Hne].
  - rewrite bind_cons. f_equal. apply filter_all, found_for_id.
  - rewrite filter_none; [reflexivity|].
    eapply Forall_impl; [apply found_for_id|]. simpl. congruence.
Qed.

Lemma found_of_rule code rule :
  rule ∈ ANALYSIS_RULES ->
  filter (fun i => Issue.id i = Rule.id rule) (found code) =
  found_for code (has_memo code) rule.
Proof.
  intros Hr. unfold found. rewrite found_filter_bind.
  replace (filter (fun r => Rule.id r = Rule.id rule) ANALYSIS_RULES) with [rule].
  - rewrite bind_cons. apply app_nil_r.
  - unfold ANALYSIS_RULES in Hr. rewrite !elem_of_cons in Hr.
    repeat (destruct Hr as [->|Hr]); try (inversion Hr; fail); reflexivity.
Qed.

(** With [React.memo(] in the input every inline handler is reported
    twice, by B001A and by B001B, for the same occurrence. *)
Theorem memoized_handlers_are_reported_twice now σ s r σ' l :
  analyze now σ (JSStringV s) = Some (r, σ') -> issues r = Some l ->
  has_memo s = true ->
  Issue.occurrence <$> filter (fun i => Issue.id i = "B001A") l ≡ₚ
  Issue.occurrence <$> filter (fun i => Issue.id i = "B001B") l.
Proof.
  intros H Hl Hm. destruct (analyze_issues _ _ _ _ _ _ H Hl) as (_ & _ & -> & _).
  rewrite !sort_perm.
  change "B001A" with (Rule.id B001A). change "B001B" with (Rule.id B001B).
  rewrite !found_of_rule by (unfold ANALYSIS_RULES; rewrite !elem_of_cons; auto 10).
  unfold found_for. rewrite Hm.
  change (Rule.requiresMemoContext B001A && negb true) with false.
  change (Rule.requiresMemoContext B001B && negb true) with false.
  cbv iota. rewrite <- !list_fmap_compose. reflexivity.
Qed.

Lemma memoized_handlers_are_reported_twice_witness :
  let code := lit "React.memo(Child); <Child onClick={() => go()} />" in
  exists r σ' l,
    analyze 0 ∅ (JSStringV code) = Some (r, σ') /\ issues r = Some l /\
    length (filter (fun i => Issue.id i = "B001A") l) = 1 /\
    Issue.occurrence <$> filter (fun i => Issue.id i = "B001A") l ≡ₚ
    Issue.occurrence <$> filter (fun i => Issue.id i = "B001B") l.
Proof.
  intros code. eexists _, _, _. split; [vm_compute; reflexivity|].
  split; [reflexivity|]. split; [vm_compute; reflexivity|].
  eapply (memoized_handlers_are_reported_twice 0 ∅ code);
    [vm_compute; reflexivity|reflexivity|vm_compute; reflexivity].
Defined.

(** Each issue has the descriptive fields of the catalog rule its [id]
    names, so that two issues with one [id] differ in their occurrence
    only. *)
Theorem issues_carry_their_rule now σ s r σ' l :
  analyze now σ (JSStringV s) = Some (r, σ') -> issues r = Some l ->
  (forall i, i ∈ l ->
     exists rule, rule ∈ ANALYSIS_RULES /\
       Issue.id i = Rule.id rule /\ Issue.type i = Rule.type rule /\
       Issue.title i = Rule.title rule /\ Issue.why i = Rule.why rule /\
       Issue.fix_ i = Rule.fix_ rule /\ Issue.severity i = Rule.severity rule) /\
  (forall a b, a ∈ l -> b ∈ l -> Issue.id a = Issue.id b ->
     Issue.type a = Issue.type b /\ Issue.title a = Issue.title b /\
     Issue.why a = Issue.why b /\ Issue.fix_ a = Issue.fix_ b /\
     Issue.severity a = Issue.severity b).
Proof.
  intros H Hl. destruct (analyze_issues _ _ _ _ _ _ H Hl) as (_ & _ & -> & _). split.
  - intros i (rule & m & Hr & _ & _ & ->)%reported_match.
    exists rule. repeat split; auto.
  - intros a b (rule & ma & Hr & _ & _ & ->)%reported_match
      (rule' & mb & Hr' & _ & _ & ->)%reported_match E.
    simpl in E. apply (catalog_id_inj _ _ Hr Hr') in E as <-. repeat split.
Qed.

Lemma issues_carry_their_rule_witness :
  exists r σ' l,
    analyze 0 ∅ (JSStringV demo) = Some (r, σ') /\ issues r = Some l /\
    length l = 3 /\
    forall i, i ∈ l ->
      exists rule, rule ∈ ANALYSIS_RULES /\
        Issue.id i = Rule.id rule /\ Issue.type i = Rule.type rule /\
        Issue.title i = Rule.title rule /\ Issue.why i = Rule.why rule /\
        Issue.fix_ i = Rule.fix_ rule /\ Issue.severity i = Rule.severity rule.
Proof.
  eexists _, _, _. split; [vm_compute; reflexivity|]. split; [reflexivity|].
  split; [reflexivity|].
  eapply (issues_carry_their_rule 0 ∅ demo); [vm_compute; reflexivity|reflexivity].
Defined.

(** ** Lines and snippets *)

Lemma make_issue_line rule code m :
  lineNumber (Issue.occurrence (make_issue rule code m)) =
  length (filter (fun c => c = 10%N) (take (index m) code)) + 1.
Proof.
  simpl. rewrite newlines_length. unfold slice. rewrite Nat.sub_0_r. reflexivity.
Qed.

Lemma line_feeds_take (code : JSString) i j :
  i <= j ->
  length (filter (fun c => c = 10%N) (take i code)) <=
  length (filter (fun c => c = 10%N) (take j code)).
Proof.
  intros Hij. replace j with (i + (j - i)) by lia.
  rewrite <- take_take_drop, filter_app, length_app. lia.
Qed.

Lemma line_feeds_all (code : JSString) i :
  length (filter (fun c => c = 10%N) (take i code)) <=
  length (filter (fun c => c = 10%N) code).
Proof.
  rewrite <- (take_drop i code) at 2. rewrite filter_app, length_app. lia.
Qed.

(** Lines grow with offsets, whatever the rules: an issue that starts no
    later than another is on no later a line; and no line is beyond the
    last line of the input. *)
Theorem lines_follow_offsets now σ s r σ' l :
  analyze now σ (JSStringV s) = Some (r, σ') -> issues r = Some l ->
  (forall a, a ∈ l -> line a <= 1 + length (filter (fun c => c = 10%N) s)) /\
  (forall a b, a ∈ l -> b ∈ l ->
     charStart (Issue.occurrence a) <= charStart (Issue.occurrence b) ->
     line a <= line b).
Proof.
  intros H Hl. destruct (analyze_issues _ _ _ _ _ _ H Hl) as (_ & _ & -> & _).
  unfold line. split.
  - intros a (rule & m & _ & _ & _ & ->)%reported_match.
    rewrite make_issue_line. pose proof (line_feeds_all s (index m)). lia.
  - intros a b (rule & ma & _ & _ & _ & ->)%reported_match
      (rule' & mb & _ & _ & _ & ->)%reported_match Hle.
    rewrite !make_issue_line. simpl in Hle.
    pose proof (line_feeds_take s _ _ Hle). lia.
Qed.

Lemma lines_follow_offsets_witness :
  let code := lit "<img src=a>" ++ [10%N] ++ lit "key={i}" in
  exists r σ' l,
    analyze 0 ∅ (JSStringV code) = Some (r, σ') /\ issues r = Some l /\
    length l = 2 /\
    (forall a, a ∈ l -> line a <= 1 + length (filter (fun c => c = 10%N) code)) /\
    (forall a b, a ∈ l -> b ∈ l ->
       charStart (Issue.occurrence a) <= charStart (Issue.occurrence b) ->
       line a <= line b).
Proof.
  intros code. eexists _, _, _. split; [vm_compute; reflexivity|].
  split; [reflexivity|]. split; [reflexivity|].
  eapply (lines_follow_offsets 0 ∅ code); [vm_compute; reflexivity|reflexivity].
Defined.

Lemma trim_start_snoc s c :
  is_space c = false -> trim_start (s ++ [c]) = trim_start s ++ [c].
Proof.
  intros Hc. induction s as [|d s IH]; simpl; [rewrite Hc; reflexivity|].
  destruct (is_space d); [exact IH|reflexivity].
Qed.

Lemma trim_end_cons s c :
  is_space c = false -> trim_end (c :: s) = c :: trim_end s.
Proof.
  intros Hc. unfold trim_end.
  rewrite reverse_cons, trim_start_snoc, reverse_app by exact Hc. reflexivity.
Qed.

Lemma trim_start_idem s : trim_start (trim_start s) = trim_start s.
Proof.
  induction s as [|c s IH]; [reflexivity|]. simpl.
  destruct (is_space c) eqn:E; [exact IH|]. simpl. rewrite E. reflexivity.
Qed.

Lemma trim_end_idem s : trim_end (trim_end s) = trim_end s.
Proof.
  unfold trim_end. rewrite reverse_involutive, trim_start_idem. reflexivity.
Qed.

(** [trim] is idempotent. *)
Lemma trim_idem s : trim (trim s) = trim s.
Proof.
  unfold trim. destruct (trim_start s) as [|c t] eqn:E; [reflexivity|].
  pose proof (trim_start_head _ _ _ E) as Hc.
  rewrite (trim_end_cons t c Hc). simpl. rewrite Hc.
  rewrite (trim_end_cons _ c Hc), trim_end_idem. reflexivity.
Qed.

(** A snippet is never empty, and has no white space at either end. *)
Theorem snippets_are_trimmed now σ s r σ' l i :
  analyze now σ (JSStringV s) = Some (r, σ') -> issues r = Some l -> i ∈ l ->
  snippet (Issue.occurrence i) <> [] /\
  trim (snippet (Issue.occurrence i)) = snippet (Issue.occurrence i) /\
  (forall c, head (snippet (Issue.occurrence i)) = Some c -> is_space c = false) /\
  (forall c, last (snippet (Issue.occurrence i)) = Some c -> is_space c = false).
Proof.
  intros H Hl Hi. destruct (analyze_issues _ _ _ _ _ _ H Hl) as (_ & _ & -> & _).
  apply reported_match in Hi as (rule & m & _ & _ & ([Hlt _] & (c & Hc & Hs) & _) & ->).
  simpl. rewrite <- (matched_head s m Hlt) in Hc.
  destruct (matched s m) as [|c' t] eqn:E; [discriminate|]. injection Hc as ->.
  assert (Ht : trim (c :: t) = c :: trim_end t).
  { unfold trim. simpl. rewrite Hs. apply trim_end_cons, Hs. }
  split; [rewrite Ht; discriminate|]. split; [apply trim_idem|]. split.
  - rewrite Ht. intros ? [= <-]. exact Hs.
  - intros d Hd. destruct (is_space d) eqn:Ed; [|reflexivity].
    pose proof (trim_idem (c :: t)) as Hidem. unfold trim at 1 in Hidem.
    rewrite Ht in Hd, Hidem. simpl in Hidem. rewrite Hs in Hidem.
    unfold trim_end in Hidem at 1.
    apply last_Some in Hd as [u Hu]. rewrite Hu in Hidem.
    rewrite reverse_app in Hidem. simpl in Hidem. rewrite Ed in Hidem.
    apply (f_equal length) in Hidem.
    rewrite length_reverse, length_app in Hidem. simpl in Hidem.
    destruct (trim_start_drop (reverse u)) as [k Hk]. rewrite Hk in Hidem.
    rewrite length_drop, length_reverse in Hidem. lia.
Qed.

Lemma snippets_are_trimmed_witness :
  let code := lit "<img src=a.png>" in
  exists i,
    (issues ∘ fst <$> analyze 0 ∅ (JSStringV code)) = Some (Some [i]) /\
    snippet (Issue.occurrence i) <> [] /\
    trim (snippet (Issue.occurrence i)) = snippet (Issue.occurrence i).
Proof.
  intros code. eexists. split; [vm_compute; reflexivity|].
  edestruct (snippets_are_trimmed 0 ∅ code) as (H1 & H2 & _);
    [vm_compute; reflexivity|reflexivity|left|].
  split; [exact H1|exact H2].
Defined.

(** ** The cursors *)

Lemma rewound_lookup_rule rules rule : forall σ,
  rule ∈ rules -> rewound rules σ !! Rule.id rule = Some 0.
Proof.
  induction rules as [|r rules IH] using rev_ind; intros σ Hr; [inversion Hr|].
  unfold rewound in *. rewrite foldl_app. simpl.
  destruct (decide (Rule.id r = Rule.id rule)) as [E|E].
  - rewrite E, lookup_insert_eq. reflexivity.
  - rewrite lookup_insert_ne by exact E. apply IH.
    apply elem_of_app in Hr as [Hr|Hr%list_elem_of_singleton]; congruence.
Qed.

Lemma rewound_lookup_other rules k : forall σ,
  (forall rule, rule ∈ rules -> Rule.id rule <> k) -> rewound rules σ !! k = σ !! k.
Proof.
  induction rules as [|r rules IH] using rev_ind; intros σ Hk; [reflexivity|].
  unfold rewound in *. rewrite foldl_app. simpl.
  rewrite lookup_insert_ne.
  - apply IH. intros rule Hr. apply Hk, elem_of_app. left. exact Hr.
  - apply Hk, elem_of_app. right. left.
Qed.

(** A call that analyzes leaves the cursor of every catalog regex at 0,
    that of the skipped B001A too, wherever the cursors were; it touches no
    other entry of the store; a call that reports an error touches none. *)
Theorem cursors_are_rewound now σ v r σ' :
  analyze now σ v = Some (r, σ') ->
  (issues r = None -> σ' = σ) /\
  (is_Some (issues r) ->
   forall rule, rule ∈ ANALYSIS_RULES -> σ' !! Rule.id rule = Some 0) /\
  (forall k, (forall rule, rule ∈ ANALYSIS_RULES -> Rule.id rule <> k) ->
             σ' !! k = σ !! k).
Proof.
  intros H. destruct (string_or_not v) as [(s & -> & Hs)|Hv].
  - rewrite analyze_string in H by exact Hs. injection H as <- <-.
    split; [discriminate|]. split.
    + intros _ rule Hr. exact (rewound_lookup_rule ANALYSIS_RULES rule σ Hr).
    + intros k Hk. exact (rewound_lookup_other ANALYSIS_RULES k σ Hk).
  - rewrite analyze_invalid in H by exact Hv. injection H as <- <-.
    split; [reflexivity|]. split; [intros [? [=]]|reflexivity].
Qed.

Lemma cursors_are_rewound_witness :
  let σ : gmap string nat := {[ "A001"%string := 7; "other"%string := 3 ]} in
  exists r σ',
    analyze 0 σ (JSStringV (lit "key={i}")) = Some (r, σ') /\
    σ' !! "A001"%string = Some 0 /\ σ' !! "B001A"%string = Some 0 /\
    σ' !! "other"%string = Some 3.
Proof.
  intros σ.
  destruct (analyze 0 σ (JSStringV (lit "key={i}"))) as [[r σ']|] eqn:E;
    [|vm_compute in E; discriminate].
  exists r, σ'. split; [reflexivity|].
  destruct (cursors_are_rewound 0 σ _ r σ' E) as (_ & Hz & Ho).
  assert (Hi : is_Some (issues r)).
  { rewrite analyze_string in E by discriminate. injection E as <- _. eexists. reflexivity. }
  split; [apply (Hz Hi A001); unfold ANALYSIS_RULES; rewrite !elem_of_cons; auto|].
  split; [apply (Hz Hi B001A); unfold ANALYSIS_RULES; rewrite !elem_of_cons; auto|].
  rewrite Ho; [reflexivity|]. intros rule Hr. unfold ANALYSIS_RULES in Hr.
  rewrite !elem_of_cons in Hr.
  repeat (destruct Hr as [->|Hr]); try (inversion Hr; fail); discriminate.
Defined.

(** ** Nothing is missed *)

Lemma search_first ic input r n : forall i j y,
  search ic input r n i = Some (j, y) ->
  forall k, i <= k < j -> match_at ic input r k = None.
Proof.
  induction n as [|n IH]; intros i j y; simpl; [discriminate|].
  destruct (match_at ic input r i) as [z|] eqn:E.
  - intros [= <- <-] k Hk. lia.
  - intros H k Hk. destruct (decide (k = i)) as [->|Hne]; [exact E|].
    apply (IH _ _ _ H). lia.
Qed.

Lemma search_None_inv ic input r n : forall i,
  search ic input r n i = None ->
  forall k, i <= k < i + n -> match_at ic input r k = None.
Proof.
  induction n as [|n IH]; intros i H k Hk; [lia|]. simpl in H.
  destruct (match_at ic input r i) as [z|] eqn:E; [discriminate|].
  destruct (decide (k = i)) as [->|Hne]; [exact E|]. apply (IH _ H). lia.
Qed.

(** [exec] returns the first match at or after the cursor. *)
Lemma exec_first re code li m li' :
  global re = true -> exec re code li = (Some m, li') ->
  forall k, li <= k < index m -> match_at (ignoreCase re) code (source re) k = None.
Proof.
  unfold exec. intros ->. destruct (length code <? li); [discriminate|].
  destruct (search _ _ _ _ _) as [[i y]|] eqn:Hs; [|discriminate].
  intros [= <- <-]. simpl. apply (search_first _ _ _ _ _ _ _ Hs).
Qed.

Lemma exec_null re code li li' :
  global re = true -> exec re code li = (None, li') ->
  forall k, li <= k <= length code -> match_at (ignoreCase re) code (source re) k = None.
Proof.
  unfold exec. intros ->. destruct (length code <? li) eqn:E.
  - apply Nat.ltb_lt in E. intros _ k Hk. lia.
  - apply Nat.ltb_ge in E.
    destruct (search _ _ _ _ _) as [[i y]|] eqn:Hs; [discriminate|].
    intros _ k Hk. apply (search_None_inv _ _ _ _ _ Hs). lia.
Qed.

(** Wherever the pattern matches from the cursor on, a match of the scan is
    there or began before and has not ended yet. *)
Lemma matches_cover rule code fuel : forall li ms j,
  scannable rule = true ->
  matches fuel (Rule.regex rule) code li = Some ms ->
  li <= j <= length code ->
  is_Some (match_at (ignoreCase (Rule.regex rule)) code (source (Rule.regex rule)) j) ->
  exists m, m ∈ ms /\ index m <= j < lastEnd m.
Proof.
  intros li ms j Hr. destruct (scannable_inv _ Hr) as (Hg & hs & Hhs & _).
  revert li ms. induction fuel as [|fuel IH]; intros li ms; simpl; [discriminate|].
  destruct (exec (Rule.regex rule) code li) as [[m|] li'] eqn:E.
  - destruct (matches fuel (Rule.regex rule) code li') as [ms'|] eqn:Hms; [|discriminate].
    intros [= <-] Hj Hsome.
    pose proof (exec_first _ _ _ _ _ Hg E) as Hfirst.
    pose proof (exec_Some _ _ _ _ _ Hg E) as (-> & Hb & Hlen & _).
    destruct (decide (j < index m)) as [Hlt|Hge].
    { rewrite (Hfirst j) in Hsome by lia. destruct Hsome as [? [=]]. }
    destruct (decide (j < lastEnd m)) as [Hin|Hout].
    + exists m. split; [left|lia].
    + destruct (IH _ _ Hms ltac:(lia) Hsome) as (m' & Hm' & Hc).
      exists m'. split; [right; exact Hm'|exact Hc].
  - intros _ Hj Hsome. rewrite (exec_null _ _ _ _ Hg E j) in Hsome by lia.
    destruct Hsome as [? [=]].
Qed.

(** The scan of a rule that is not skipped misses nothing: wherever in the
    input the pattern of the rule matches, a match the scan met covers that
    place, and unless the allow-list suppressed it the report has its
    issue. *)
Theorem no_match_is_missed now σ s r σ' l rule j :
  analyze now σ (JSStringV s) = Some (r, σ') -> issues r = Some l ->
  rule ∈ ANALYSIS_RULES ->
  Rule.requiresMemoContext rule && negb (has_memo s) = false ->
  j <= length s ->
  is_Some (match_at (ignoreCase (Rule.regex rule)) s (source (Rule.regex rule)) j) ->
  exists m li,
    (exec (Rule.regex rule) s li).1 = Some m /\
    index m <= j < lastEnd m /\
    (suppressed rule s m = false -> make_issue rule s m ∈ l) /\
    (Rule.id rule <> "A003" -> make_issue rule s m ∈ l).
Proof.
  intros H Hl Hr Hg Hj Hsome.
  destruct (analyze_issues _ _ _ _ _ _ H Hl) as (_ & _ & -> & _).
  pose proof (catalog_elem_scannable _ Hr) as Hsc.
  assert (Hall := matches_all rule s (S (length s)) Hsc ltac:(lia)).
  assert (Hrange : 0 <= j <= length s) by lia.
  destruct (matches_cover rule s (S (length s)) 0 _ j Hsc Hall Hrange Hsome)
    as (m & Hm & Hc).
  destruct (all_matches_props rule s Hsc) as (HF & _).
  rewrite Forall_forall in HF. destruct (HF m Hm) as (_ & _ & li & Hli).
  assert (Hkept : suppressed rule s m = false -> make_issue rule s m ∈
                    sort compare_issues (found s)).
  { intros Hk. rewrite sort_perm. apply found_elem. exists rule. split; [exact Hr|].
    unfold found_for. rewrite Hg. apply list_elem_of_fmap_2, list_elem_of_filter.
    split; [exact Hk|exact Hm]. }
  exists m, li. split; [exact Hli|]. split; [exact Hc|]. split; [exact Hkept|].
  intros Hne. apply Hkept. unfold suppressed.
  rewrite (bool_decide_eq_false_2 _ Hne). reflexivity.
Qed.

Lemma no_match_is_missed_witness :
  let code := lit "a key={i} key={ index }" in
  exists r σ' l m li,
    analyze 0 ∅ (JSStringV code) = Some (r, σ') /\ issues r = Some l /\
    (exec (Rule.regex B003) code li).1 = Some m /\
    index m <= 10 < lastEnd m /\ make_issue B003 code m ∈ l.
Proof.
  intros code.
  destruct (analyze 0 ∅ (JSStringV code)) as [[r σ']|] eqn:E;
    [|vm_compute in E; discriminate].
  assert (Hl : issues r = Some (sort compare_issues (found code))).
  { rewrite analyze_string in E by discriminate. injection E as <- _. reflexivity. }
  destruct (no_match_is_missed 0 ∅ code r σ' _ B003 10 E Hl) as (m & li & H1 & H2 & _ & H3).
  - unfold ANALYSIS_RULES. rewrite !elem_of_cons. auto 10.
  - reflexivity.
  - vm_compute. lia.
  - eexists. vm_compute. reflexivity.
  - exists r, σ', (sort compare_issues (found code)), m, li.
    split; [reflexivity|]. split; [exact Hl|]. split; [exact H1|].
    split; [exact H2|]. apply H3. discriminate.
Defined.

(** * The request handler *)



(** A request with a truthy [code] is answered 200 with the report of
    [analyze] for it.  That report is the error report exactly when [code] is
    not a string: the empty string never reaches the engine, and a string
    that does gets its issues. *)
Theorem request_with_code_is_analyzed now σ body code :
  body !! "code"%string = Some code -> truthy code = true ->
  exists r σ',
    post_analyze now σ body = Some ({| statusCode := 200; payload := Analysis r |}, σ') /\
    analyze now σ code = Some (r, σ') /\
    (status r = "Error" <-> forall s, code <> JSStringV s) /\
    (forall s, code = JSStringV s ->
       s <> [] /\ issues r = Some (sort compare_issues (found s))).
Proof.
  intros Hb Ht. unfold post_analyze. rewrite Hb. simpl. rewrite Ht. simpl.
  destruct (string_or_not code) as [(s & -> & Hs)|Hv].
  - rewrite analyze_string by exact Hs. eexists _, _. split; [reflexivity|].
    split; [reflexivity|]. split.
    + split.
      * unfold report_of. simpl. destruct (bool_decide _); discriminate.
      * intros H. destruct (H s eq_refl).
    + intros s' [= <-]. split; [exact Hs|reflexivity].
  - rewrite analyze_invalid by exact Hv. eexists _, _. split; [reflexivity|].
    split; [reflexivity|]. split.
    + split; [|reflexivity]. intros _ s ->.
      rewrite (Hv s eq_refl) in Ht. discriminate.
    + intros s ->. rewrite (Hv s eq_refl) in Ht. discriminate.
Qed.

Lemma request_with_code_is_analyzed_witness :
  (exists r σ',
     post_analyze 0 ∅ {[ "code"%string := JSStringV (lit "key={i}") ]} =
       Some ({| statusCode := 200; payload := Analysis r |}, σ') /\
     status r = "Issues Found") /\
  (exists r σ',
     post_analyze 0 ∅ {[ "code"%string := JSNumber (Some 5%Z) ]} =
       Some ({| statusCode := 200; payload := Analysis r |}, σ') /\
     status r = "Error").
Proof.
  split.
  - destruct (request_with_code_is_analyzed 0 ∅
                {[ "code"%string := JSStringV (lit "key={i}") ]} (JSStringV (lit "key={i}")))
      as (r & σ' & H & Ha & _); [reflexivity|reflexivity|].
    exists r, σ'. split; [exact H|].
    rewrite analyze_string in Ha by discriminate. injection Ha as <- _.
    vm_compute. reflexivity.
  - destruct (request_with_code_is_analyzed 0 ∅
                {[ "code"%string := JSNumber (Some 5%Z) ]} (JSNumber (Some 5%Z)))
      as (r & σ' & H & _ & [_ He] & _); [reflexivity|reflexivity|].
    exists r, σ'. split; [exact H|]. apply He. discriminate.
Defined.

(** * The page *)

Lemma or_string_filled x d : d <> EmptyString -> or_string x d <> EmptyString.
Proof.
  intros Hd. unfold or_string. destruct x as [e|]; [|exact Hd].
  destruct (bool_decide (e = EmptyString)) eqn:E; [exact Hd|].
  apply bool_decide_eq_false in E. exact E.
Qed.

(** [analyzeCode] with a blank code asks nothing of the server and only sets
    its message.  With any other code it ends with [loading] false, and
    either with the issues of an answer that was [ok] and not an error, and
    no message, or with a message and no issues at all, whatever was on the
    page before. *)
Theorem analyze_code_settles fetch st :
  let st' := analyzeCode fetch st in
  App.code st' = App.code st /\
  (trim (App.code st) = [] ->
   App.error st' = "Paste some React code first."%string /\
   App.issues st' = App.issues st /\ App.loading st' = App.loading st /\
   forall fetch', analyzeCode fetch' st = st') /\
  (trim (App.code st) <> [] ->
   App.loading st' = false /\
   ((App.error st' = EmptyString /\
     exists res, fetch (App.code st) = Responded res /\ ok res = true /\
                 data_status (payload res) <> Some "Error"%string /\
                 App.issues st' = default [] (data_issues (payload res))) \/
    (App.error st' <> EmptyString /\ App.issues st' = [] /\
     shows_clean st' = false))).
Proof.
  unfold analyzeCode. simpl. split; [|split].
  - destruct (bool_decide (trim (App.code st) = [])); simpl; [reflexivity|].
    destruct (fetch (App.code st)) as [|res]; [reflexivity|].
    destruct (negb (ok res) || _); reflexivity.
  - intros Ht. rewrite (bool_decide_eq_true_2 _ Ht). simpl. auto.
  - intros Ht. rewrite (bool_decide_eq_false_2 _ Ht). simpl.
    destruct (fetch (App.code st)) as [|res]; simpl.
    + split; [reflexivity|]. right. split; [discriminate|]. split; reflexivity.
    + destruct (ok res) eqn:Hok; simpl.
      * destruct (bool_decide (data_status (payload res) = Some "Error"%string)) eqn:E;
          simpl.
        -- split; [reflexivity|]. right.
           pose proof (or_string_filled (data_error (payload res))
                         "Analysis failed due to a server error." ltac:(discriminate)) as Hne.
           split; [exact Hne|]. split; [reflexivity|]. unfold shows_clean. simpl.
           rewrite (bool_decide_eq_false_2 _ Hne). reflexivity.
        -- apply bool_decide_eq_false in E. split; [reflexivity|]. left.
           split; [reflexivity|]. exists res. auto.
      * split; [reflexivity|]. right.
        pose proof (or_string_filled (data_error (payload res))
                      "Analysis failed due to a server error." ltac:(discriminate)) as Hne.
        split; [exact Hne|]. split; [reflexivity|]. unfold shows_clean. simpl.
        rewrite (bool_decide_eq_false_2 _ Hne). reflexivity.
Qed.

Lemma analyzeCode_ok fetch st res :
  trim (App.code st) <> [] -> fetch (App.code st) = Responded res ->
  ok res = true -> data_status (payload res) <> Some "Error"%string ->
  analyzeCode fetch st =
  {| App.code := App.code st; App.issues := default [] (data_issues (payload res));
     App.loading := false; App.error := EmptyString |}.
Proof.
  intros Ht Hf Hok Hne. unfold analyzeCode. cbn [truthy].
  rewrite (bool_decide_eq_false_2 _ Ht). cbn [negb].
  rewrite Hf, Hok, (bool_decide_eq_false_2 _ Hne). reflexivity.
Qed.

Lemma served_string now σ s :
  s <> [] ->
  served now σ s =
  Responded {| statusCode := 200; payload := Analysis (report_of now (found s)) |}.
Proof.
  intros Hs. unfold served, post_analyze. rewrite lookup_singleton_eq.
  change (default JSUndefined (Some (JSStringV s))) with (JSStringV s).
  cbn [truthy]. rewrite (bool_decide_eq_false_2 _ Hs). cbn [negb].
  rewrite analyze_string by exact Hs. reflexivity.
Qed.

(** The page, the handler and the engine together.  When the request of a
    page whose code is not blank reaches the handler and the answer comes
    back, the page ends with no message and with the issues of the engine
    for that code, sorted; the answer is never the 400 nor the error
    report, and the clean message shows exactly when the engine found
    nothing. *)
Theorem page_shows_the_report now σ st :
  trim (App.code st) <> [] ->
  let st' := analyzeCode (served now σ) st in
  App.error st' = EmptyString /\ App.loading st' = false /\
  App.issues st' = sort compare_issues (found (App.code st)) /\
  (shows_clean st' = true <-> found (App.code st) = []).
Proof.
  intros Ht. assert (Hs : App.code st <> []).
  { intros E. apply Ht. rewrite E. reflexivity. }
  cbv zeta.
  rewrite (analyzeCode_ok _ st _ Ht (served_string now σ _ Hs) eq_refl).
  - split; [reflexivity|]. split; [reflexivity|]. split; [reflexivity|].
    unfold shows_clean. cbn [App.loading App.error App.code App.issues truthy].
    rewrite (bool_decide_eq_false_2 _ Ht).
    rewrite (bool_decide_eq_true_2 (EmptyString = EmptyString)) by reflexivity.
    cbn [negb andb payload data_issues issues report_of].
    change (default [] (Some (sort compare_issues (found (App.code st)))))
      with (sort compare_issues (found (App.code st))).
    rewrite sort_length, bool_decide_eq_true.
    split; [apply length_zero_iff_nil|intros ->; reflexivity].
  - cbn [payload data_status]. unfold report_of, status.
    destruct (bool_decide (length (found (App.code st)) = 0)); discriminate.
Qed.

Lemma page_shows_the_report_witness :
  let st := {| App.code := lit " key={i} "; App.issues := []; App.loading := false;
               App.error := "Paste some React code first." |} in
  let st' := analyzeCode (served 0 ∅) st in
  App.error st' = EmptyString /\ App.loading st' = false /\
  App.issues st' = sort compare_issues (found (App.code st)) /\
  (shows_clean st' = true <-> found (App.code st) = []).
Proof.
  intros st. apply (page_shows_the_report 0 ∅ st). vm_compute. discriminate.
Defined.

(** * The earlier engine *)







(** ** The two comparators *)

Lemma legacy_compare_agrees a b :
  ranked a -> ranked b ->
  Legacy.compare_issues (without_id a) (without_id b) = compare_issues a b.
Proof.
  intros [ra Ha] [rb Hb]. unfold Legacy.compare_issues, compare_issues, without_id.
  simpl. rewrite Ha, Hb.
  assert (Hra : Legacy.severityOrder (Issue.severity a) = ra).
  { unfold severityRank in Ha. unfold Legacy.severityOrder.
    repeat destruct (bool_decide _); congruence. }
  assert (Hrb : Legacy.severityOrder (Issue.severity b) = rb).
  { unfold severityRank in Hb. unfold Legacy.severityOrder.
    repeat destruct (bool_decide _); congruence. }
  rewrite Hra, Hrb. destruct (Z.eqb_spec rb ra) as [->|Hne]; simpl.
  - rewrite Z.sub_diag. reflexivity.
  - destruct (Z.eqb_spec (rb - ra) 0); [lia|reflexivity].
Qed.

Lemma legacy_insert_agrees a l :
  ranked a -> Forall ranked l ->
  without_id <$> insert_sorted compare_issues a l =
  insert_sorted Legacy.compare_issues (without_id a) (without_id <$> l).
Proof.
  intros Ha Hl. induction Hl as [|b l Hb Hl IH]; [reflexivity|].
  simpl. rewrite (legacy_compare_agrees a b Ha Hb).
  destruct (compare_issues a b <=? 0)%Z; [reflexivity|].
  simpl. f_equal. exact IH.
Qed.

(** The comparator of the earlier engine, which takes every severity it
    does not know for the lowest, orders issues of the four severities as
    the comparator of [analyze] does: sorting and dropping the [id]s is
    dropping the [id]s and sorting the earlier way. *)
Theorem legacy_sort_agrees l :
  Forall ranked l ->
  without_id <$> sort compare_issues l =
  sort Legacy.compare_issues (without_id <$> l).
Proof.
  induction 1 as [|a l Ha Hl IH]; [reflexivity|].
  simpl. rewrite legacy_insert_agrees; [|exact Ha|rewrite sort_perm; exact Hl].
  rewrite IH. reflexivity.
Qed.

Lemma legacy_sort_agrees_witness :
  exists l,
    found demo = l /\ length l = 3 /\
    without_id <$> sort compare_issues l =
    sort Legacy.compare_issues (without_id <$> l).
Proof.
  eexists. split; [reflexivity|]. split; [vm_compute; reflexivity|].
  apply (legacy_sort_agrees (found demo)), found_ranked.
Defined.

(** ** The two loops *)




(** The loop of [analyze] has no such guard: when [exec] returns a match and
    leaves the cursor where it was, as it does after a match of zero width
    at the cursor, the loop does not end, whatever the fuel. *)
Theorem scan_stalls_on_an_empty_match rule code m li :
  exec (Rule.regex rule) code li = (Some m, li) ->
  forall fuel σ acc, lastIndex σ rule = li -> scan fuel rule code σ acc = None.
Proof.
  intros E. induction fuel as [|fuel IH]; intros σ acc Hσ; [reflexivity|].
  simpl. rewrite Hσ, E.
  assert (Hσ' : lastIndex (<[Rule.id rule := li]> σ) rule = li).
  { unfold lastIndex. rewrite lookup_insert_eq. reflexivity. }
  destruct (suppressed rule code m); apply IH, Hσ'.
Qed.

Lemma scan_stalls_on_an_empty_match_witness :
  scan 1000 blank_rule (lit "x") ∅ [] = None.
Proof.
  apply (scan_stalls_on_an_empty_match blank_rule (lit "x")
           {| index := 0; lastEnd := 0; groupRanges := ∅ |} 0);
    [vm_compute; reflexivity|reflexivity].
Defined.

(** ** The size of a report *)

Lemma found_for_length code hm rule :
  scannable rule = true -> length (found_for code hm rule) <= length code.
Proof.
  intros Hr. unfold found_for.
  destruct (Rule.requiresMemoContext rule && negb hm); [simpl; lia|].
  rewrite length_fmap.
  pose proof (length_filter (kept rule code) (all_matches (Rule.regex rule) code)).
  destruct (all_matches_props rule code Hr) as (_ & _ & Hlen). lia.
Qed.

Lemma found_length code hm rules :
  Forall (fun rule => scannable rule = true) rules ->
  length (rules ≫= found_for code hm) <= length rules * length code.
Proof.
  induction 1 as [|rule rules Hr _ IH]; [reflexivity|].
  rewrite bind_cons, length_app. pose proof (found_for_length code hm rule Hr).
  simpl. lia.
Qed.

(** A report has at most as many issues as the catalog has rules times the
    input has characters. *)
Theorem total_is_bounded now σ s r σ' n :
  analyze now σ (JSStringV s) = Some (r, σ') -> totalIssues r = Some n ->
  n <= length ANALYSIS_RULES * length s /\ issues r <> None.
Proof.
  intros H Hn. destruct (decide (s = [])) as [->|Hs].
  - injection H as <- _. discriminate Hn.
  - rewrite analyze_string in H by exact Hs. injection H as <- _.
    injection Hn as <-. split; [|discriminate].
    apply found_length, catalog_scannable.
Qed.

Lemma total_is_bounded_witness :
  exists r σ' n,
    analyze 0 ∅ (JSStringV demo) = Some (r, σ') /\ totalIssues r = Some n /\
    n <= length ANALYSIS_RULES * length demo.
Proof.
  eexists _, _, _. split; [vm_compute; reflexivity|]. split; [reflexivity|].
  eapply (total_is_bounded 0 ∅ demo); [vm_compute; reflexivity|reflexivity].
Defined.
